(** * Dimension selection via Wasserstein distance: a Rocq model

    A shallow embedding of the functions of
    [dimension_selection/wasserstein.ipynb]:
    [pc_scores], [poly_kernel] and [wasserstein_dim_select].

    Conventions of the embedding.
    - numpy's floating-point arrays are modelled over the real numbers [R]:
      a two-dimensional array is its number of columns together with the list
      of its rows, so that an array with no row still has a shape, as in numpy;
    - Python integers are [Z]; the split fraction is a rational [Q], and the
      product [n * split] is taken exactly;
    - the truncated SVD ([scipy.sparse.linalg.svds]) and the transport solver
      ([ot.emd2]) are external: they are parameters of the model, functions of
      a hidden solver state (ARPACK starts from a random vector), and every
      call to them is recorded in a trace;
    - Python exceptions are the [Raise] results of a state-and-error monad. *)

From Stdlib Require Import Reals Lra Lia ZArith QArith Qround.
From Stdlib Require Import List Bool Arith Permutation Sorted String.
Import ListNotations.

Close Scope Q_scope.
Close Scope R_scope.
Close Scope Z_scope.
Open Scope nat_scope.

Set Implicit Arguments.

(** ** Arrays *)

Record ndarray : Type := mkArray { ncols : nat; rows : list (list R) }.

Definition nrows (A : ndarray) : nat := List.length (rows A).

(** [A.shape]. *)
Definition shape (A : ndarray) : nat * nat := (nrows A, ncols A).

(** Every row has [ncols A] entries: the typing invariant of a numpy array. *)
Definition well_shaped (A : ndarray) : bool :=
  forallb (fun r => Nat.eqb (List.length r) (ncols A)) (rows A).

(** [A[i, j]], with 0 outside the array (only used inside it). *)
Definition entry (A : ndarray) (i j : nat) : R := nth j (nth i (rows A) []) 0%R.

(** The bound of a slice [a[:i]] or [a[i:]] over [len] items: Python counts a
    negative bound from the end and clamps the result to [0..len]. *)
Definition slice_index (len : nat) (i : Z) : nat :=
  if (i <? 0)%Z then Z.to_nat (Z.max 0 (Z.of_nat len + i))
  else Nat.min (Z.to_nat i) len.

(** [l[lo:hi]] *)
Definition slice {A : Type} (l : list A) (lo hi : Z) : list A :=
  let a := slice_index (List.length l) lo in
  let b := slice_index (List.length l) hi in
  firstn (b - a) (skipn a l).

(** [A[:stop, :]] *)
Definition rows_upto (A : ndarray) (stop : Z) : ndarray :=
  mkArray (ncols A) (firstn (slice_index (nrows A) stop) (rows A)).

(** [A[start:stop, :]] *)
Definition rows_between (A : ndarray) (start stop : Z) : ndarray :=
  mkArray (ncols A) (slice (rows A) start stop).

(** [A[:, :stop]] *)
Definition cols_upto (A : ndarray) (stop : Z) : ndarray :=
  mkArray (slice_index (ncols A) stop)
          (map (firstn (slice_index (ncols A) stop)) (rows A)).

(** Column [j] of [A]. *)
Definition column (A : ndarray) (j : nat) : list R :=
  map (fun r => nth j r 0%R) (rows A).

(** [A.T] *)
Definition transpose (A : ndarray) : ndarray :=
  mkArray (nrows A) (map (column A) (seq 0 (ncols A))).

Definition Rsum (l : list R) : R := fold_right Rplus 0%R l.

Definition dot (u v : list R) : R :=
  Rsum (map (fun xy => (fst xy * snd xy)%R) (combine u v)).

(** The product of two arrays whose shapes agree. *)
Definition mat_mul (A B : ndarray) : ndarray :=
  mkArray (ncols B) (map (fun a => map (dot a) (rows (transpose B))) (rows A)).

(** [A + c] and an elementwise function, both broadcast over the array. *)
Definition map_entries (f : R -> R) (A : ndarray) : ndarray :=
  mkArray (ncols A) (map (map f) (rows A)).

Definition add_scalar (A : ndarray) (c : R) : ndarray :=
  map_entries (fun x => (x + c)%R) A.

(** The identity array, used to state orthonormality. *)
Definition identity (n : nat) : ndarray :=
  mkArray n (map (fun i => map (fun j => if Nat.eqb i j then 1%R else 0%R) (seq 0 n))
                 (seq 0 n)).

(** Sums over an index range and arrays given by their entries: the
    vocabulary of the proofs on products and transposes. *)
Definition sum_n (f : nat -> R) (n : nat) : R := Rsum (map f (seq 0 n)).

Definition build (m n : nat) (f : nat -> nat -> R) : ndarray :=
  mkArray n (map (fun i => map (f i) (seq 0 n)) (seq 0 m)).

(** ** Python values and exceptions *)

Inductive exn : Type := ValueError | ZeroDivisionError | IndexError.

Inductive result (A : Type) : Type :=
| Ok (a : A)
| Raise (e : exn).
Arguments Ok {A} a.
Arguments Raise {A} e.

(** The values a caller may pass for [return_eig]. *)
Inductive pyobj : Type :=
| PyNone
| PyBool (b : bool)
| PyInt (z : Z)
| PyFloat (x : R)
| PyStr (s : string).

(** [v is not None] *)
Definition is_not_None (v : pyobj) : bool :=
  match v with PyNone => false | _ => true end.

(** [round(x)] on a float: to the nearest integer, ties to the even one. *)
Definition py_round (x : Q) : Z :=
  let f := Qfloor x in
  match Qcompare (x - inject_Z f) (1 # 2) with
  | Lt => f
  | Gt => (f + 1)%Z
  | Eq => if Z.even f then f else (f + 1)%Z
  end.

(** [range(lo, hi)] *)
Definition py_range (lo hi : Z) : list Z :=
  map (fun i => (lo + Z.of_nat i)%Z) (seq 0 (Z.to_nat (hi - lo))).

(** [A @ B]: numpy raises [ValueError] when the shapes do not agree. *)
Definition matmul (A B : ndarray) : result ndarray :=
  if Nat.eqb (ncols A) (nrows B) then Ok (mat_mul A B) else Raise ValueError.

(** [a.argsort()]: the indices that sort [a] in ascending order.  numpy
    leaves the order of equal values to the sorting algorithm; here the
    indices are inserted from the last to the first and equal values keep
    their order. *)
Fixpoint insert_index (s : list R) (i : nat) (l : list nat) : list nat :=
  match l with
  | [] => [i]
  | j :: l' =>
      if Rle_dec (nth i s 0%R) (nth j s 0%R) then i :: l
      else j :: insert_index s i l'
  end.

Definition argsort (s : list R) : list nat :=
  fold_right (insert_index s) [] (seq 0 (List.length s)).

(** [l[idx]] for an index array: [IndexError] on an index out of bounds. *)
Fixpoint take {A : Type} (l : list A) (idx : list nat) : result (list A) :=
  match idx with
  | [] => Ok []
  | i :: idx' =>
      match nth_error l i with
      | None => Raise IndexError
      | Some x =>
          match take l idx' with
          | Ok xs => Ok (x :: xs)
          | Raise e => Raise e
          end
      end
  end.

(** [A[idx, :]] *)
Definition take_rows (A : ndarray) (idx : list nat) : result ndarray :=
  match take (rows A) idx with
  | Ok rs => Ok (mkArray (ncols A) rs)
  | Raise e => Raise e
  end.

(** [1 / n] on Python integers, then [np.repeat(1 / n, n)]. *)
Definition uniform_weights (n : nat) : result (list R) :=
  if Nat.eqb n 0 then Raise ZeroDivisionError
  else Ok (repeat (1 / INR n)%R n).

(** The Euclidean distance of two points. *)
Definition euclidean (x y : list R) : R :=
  sqrt (Rsum (map (fun ab => ((fst ab - snd ab) * (fst ab - snd ab))%R) (combine x y))).

(** [ot.dist(X1, X2, metric='euclidean')]: the pairwise distances of the rows;
    [ValueError] when the points do not have the same dimension. *)
Definition ot_dist (X1 X2 : ndarray) : result ndarray :=
  if Nat.eqb (ncols X1) (ncols X2)
  then Ok (mkArray (nrows X2)
                   (map (fun x => map (euclidean x) (rows X2)) (rows X1)))
  else Raise ValueError.

(** The calls made to the external solvers. *)
Inductive event : Type :=
| CallSvds (A : ndarray) (k : Z)
| CallEmd2 (a b : list R) (M : ndarray).

Definition is_svds_call (e : event) : bool :=
  match e with CallSvds _ _ => true | CallEmd2 _ _ _ => false end.

(** What [pc_scores] returns: [Y] alone or the pair [(Y, s)]. *)
Inductive scores : Type :=
| Scores (Y : ndarray)
| ScoresAndEig (Y : ndarray) (s : list R).

(** ** The notebook's functions *)

Section Notebook.

(** The hidden state of the numerical solvers. *)
Variable solver_state : Type.

(** [sparse.linalg.svds(A, k=k)]: [None] when the solver rejects [k] with a
    [ValueError], otherwise the triplet [(U, s, Vh)]. *)
Variable svds_solver :
  solver_state -> ndarray -> Z -> option (ndarray * list R * ndarray) * solver_state.

(** [ot.emd2(a, b, M)] *)
Variable emd2_solver :
  solver_state -> list R -> list R -> ndarray -> R * solver_state.

(** numpy's elementwise power [x ** r]. *)
Variable np_power : R -> R -> R.

Record world : Type := mkWorld { solver : solver_state; trace : list event }.

(** Computations that read and update the world and may raise. *)
Definition M (A : Type) : Type := world -> result A * world.

Definition ret {A : Type} (a : A) : M A := fun w => (Ok a, w).

Definition bind {A B : Type} (c : M A) (k : A -> M B) : M B :=
  fun w =>
    match c w with
    | (Ok a, w') => k a w'
    | (Raise e, w') => (Raise e, w')
    end.

Definition lift {A : Type} (r : result A) : M A := fun w => (r, w).

Notation "x <- c ;; k" := (bind c (fun x => k))
  (at level 61, c at next level, right associativity).
Notation "' p <- c ;; k" := (bind c (fun x => match x with p => k end))
  (at level 61, p pattern, c at next level, right associativity).

Definition svds (A : ndarray) (k : Z) : M (ndarray * list R * ndarray) :=
  fun w =>
    let (r, st) := svds_solver (solver w) A k in
    let w' := mkWorld st (trace w ++ [CallSvds A k]) in
    match r with
    | Some usv => (Ok usv, w')
    | None => (Raise ValueError, w')
    end.

Definition emd2 (a b : list R) (C : ndarray) : M R :=
  fun w =>
    let (d, st) := emd2_solver (solver w) a b C in
    (Ok d, mkWorld st (trace w ++ [CallEmd2 a b C])).

(** [out = []; for x in xs: out.append(body(x))] *)
Fixpoint for_append {A B : Type} (xs : list A) (body : A -> M B) : M (list B) :=
  match xs with
  | [] => ret []
  | x :: xs' =>
      b <- body x ;;
      bs <- for_append xs' body ;;
      ret (b :: bs)
  end.

Definition pc_scores (X : ndarray) (r : Z) (return_eig : pyobj) : M scores :=
  ' (U, s, Vh) <- svds X r ;;
  let idx := rev (argsort s) in
  s <- lift (take s idx) ;;
  Vh <- lift (take_rows Vh idx) ;;
  Y <- lift (matmul X (transpose Vh)) ;;
  if is_not_None return_eig then ret (ScoresAndEig Y s) else ret (Scores Y).

(** [(Z @ Z.T + c) ** r] *)
Definition poly_kernel (Z : ndarray) (c r : R) : result ndarray :=
  match matmul Z (transpose Z) with
  | Ok G => Ok (map_entries (fun x => np_power x r) (add_scalar G c))
  | Raise e => Raise e
  end.

(** [P = Vh.T[:,:r] @ Vh[:r,:]] *)
Definition projection (Vh : ndarray) (r : Z) : result ndarray :=
  matmul (cols_upto (transpose Vh) r) (rows_upto Vh r).

(** The body of the loop of [wasserstein_dim_select]. *)
Definition wasserstein_at (Ytrain Ytest Vh : ndarray) (r : Z) : M R :=
  P <- lift (projection Vh r) ;;
  Yproj <- lift (matmul Ytrain (transpose P)) ;;
  let n1 := nrows Yproj in
  let n2 := nrows Ytest in
  C <- lift (ot_dist Yproj Ytest) ;;
  a <- lift (uniform_weights n1) ;;
  b <- lift (uniform_weights n2) ;;
  W1 <- emd2 a b C ;;
  ret W1.

Definition train_size (Y : ndarray) (split : Q) : Z :=
  py_round (inject_Z (Z.of_nat (nrows Y)) * split).

Definition wasserstein_dim_select (Y : ndarray) (split : Q) (rmax : Z) : M (list R) :=
  let n := Z.of_nat (nrows Y) in
  let train := train_size Y split in
  let rtry := Z.min train rmax in
  let Ytrain := rows_upto Y train in
  let Ytest := rows_between Y train n in
  ' (U, s, Vh) <- svds Ytrain rmax ;;
  let idx := rev (argsort s) in
  s <- lift (take s idx) ;;
  Vh <- lift (take_rows Vh idx) ;;
  for_append (py_range 1 (rtry + 1)) (wasserstein_at Ytrain Ytest Vh).

End Notebook.

(** ** Contracts of the external solvers and of the inputs *)

(** The rank ceiling of the truncated solver: [min(A.shape)]. *)
Definition min_shape (A : ndarray) : Z := Z.of_nat (Nat.min (nrows A) (ncols A)).

(** [svds] rejects [k] exactly when [k < 1] or [k >= min(A.shape)]; otherwise
    it answers with [k] singular values and a [k]-by-[p] array [Vh]. *)
Definition svds_contract (S : Type)
  (svds_solver : S -> ndarray -> Z -> option (ndarray * list R * ndarray) * S) : Prop :=
  forall st A k,
    match fst (svds_solver st A k) with
    | None => (k < 1 \/ min_shape A <= k)%Z
    | Some (U, s, Vh) =>
        (1 <= k < min_shape A)%Z /\
        List.length s = Z.to_nat k /\
        nrows Vh = Z.to_nat k /\
        ncols Vh = ncols A /\
        well_shaped Vh = true
    end.

(** The half of this contract that speaks of the answers only: [svds]
    answers no rank outside [1 <= k < min(A.shape)]. *)
Definition svds_accepts_in_range (S : Type)
  (svds_solver : S -> ndarray -> Z -> option (ndarray * list R * ndarray) * S) : Prop :=
  forall st A k usv,
    fst (svds_solver st A k) = Some usv -> (1 <= k < min_shape A)%Z.

Definition nonneg_entries (C : ndarray) : Prop :=
  Forall (Forall (fun x => (0 <= x)%R)) (rows C).

(** The transport cost of a nonnegative cost array under uniform weights is
    nonnegative. *)
Definition emd2_nonneg (S : Type)
  (emd2_solver : S -> list R -> list R -> ndarray -> R * S) : Prop :=
  forall st n1 n2 C,
    nonneg_entries C -> n1 <> 0 -> n2 <> 0 ->
    (0 <= fst (emd2_solver st (repeat (1 / INR n1) n1) (repeat (1 / INR n2) n2) C))%R.

(** A solver is deterministic when its answer does not depend on its state. *)
Definition deterministic_svds (S : Type)
  (svds_solver : S -> ndarray -> Z -> option (ndarray * list R * ndarray) * S) : Prop :=
  forall st1 st2 A k, fst (svds_solver st1 A k) = fst (svds_solver st2 A k).

Definition deterministic_emd2 (S : Type)
  (emd2_solver : S -> list R -> list R -> ndarray -> R * S) : Prop :=
  forall st1 st2 a b C, fst (emd2_solver st1 a b C) = fst (emd2_solver st2 a b C).

(** [Y] has [n >= 2] rows and [p >= 1] columns and [0 < split < 1]. *)
Definition valid_data (Y : ndarray) (split : Q) : Prop :=
  2 <= nrows Y /\ 1 <= ncols Y /\ (0 < split)%Q /\ (split < 1)%Q.

(** A valid input: valid data and a positive [rmax]. *)
Definition valid_input (Y : ndarray) (split : Q) (rmax : Z) : Prop :=
  valid_data Y split /\ (1 <= rmax)%Z.

(** The rows of [Vh] are orthonormal: [Vh @ Vh.T] is the identity. *)
Definition orthonormal_rows (Vh : ndarray) : Prop :=
  mat_mul Vh (transpose Vh) = identity (nrows Vh).

(** Sorted in descending order. *)
Definition descending (s : list R) : Prop := StronglySorted Rge s.

(** The values read along a list of indices are in ascending order. *)
Definition ascending_along (s : list R) (l : list nat) : Prop :=
  StronglySorted (fun i j => (nth i s 0 <= nth j s 0)%R) l.

(** The round of rank [r] of the loop: the projection of rank [r] built from
    [Vh], and the call of the transport solver on the cost array between the
    projected training half and the test half. *)
Definition round_of (Ytrain Ytest Vh : ndarray) (r : Z) (ev : event) : Prop :=
  exists P Yproj C,
    projection Vh r = Ok P /\
    matmul Ytrain (transpose P) = Ok Yproj /\
    ot_dist Yproj Ytest = Ok C /\
    ev = CallEmd2 (repeat (1 / INR (nrows Yproj))%R (nrows Yproj))
                  (repeat (1 / INR (nrows Ytest))%R (nrows Ytest)) C.

(** The result of a computation does not depend on the world it starts in. *)
Definition stateless (S A : Type) (c : M S A) : Prop :=
  forall w1 w2 : world S, fst (c w1) = fst (c w2).
Arguments stateless S [A] c.

(** ** Two concrete solvers

    They stand for the external libraries where a statement is evaluated on
    an input.  [axis_svds] answers with the first [k] coordinate axes and the
    absolute values of the first [k] diagonal entries: singular triplets of a
    diagonal array, in the order of the diagonal.  [product_emd2] is the cost
    of the product plan.  Their state counts the calls. *)

Definition axis_svds (st : nat) (A : ndarray) (k : Z)
  : option (ndarray * list R * ndarray) * nat :=
  if ((1 <=? k)%Z && (k <? min_shape A)%Z)%bool
  then (Some (cols_upto (identity (nrows A)) k,
              map (fun i => Rabs (entry A i i)) (seq 0 (Z.to_nat k)),
              rows_upto (identity (ncols A)) k),
        S st)
  else (None, S st).

Definition product_emd2 (st : nat) (a b : list R) (C : ndarray) : R * nat :=
  (dot a (map (dot b) (rows C)), S st).

(** A 4-by-3 data set and a 2-by-2 one. *)
Definition Y43 : ndarray :=
  mkArray 3 [[3; 0; 0]; [0; 2; 0]; [3; 0; 1]; [0; 2; 1]]%R.

Definition Y22 : ndarray := mkArray 2 [[1; 0]; [0; 1]]%R.

Definition w0 : world nat := mkWorld 0 [].

(** The runs of the two functions on [Y43] with [split = 1/2] and rank 1. *)
Definition run43 : result (list R) * world nat :=
  wasserstein_dim_select axis_svds product_emd2 Y43 (1 # 2) 1 w0.

Definition ws43 : list R :=
  match fst run43 with Ok ws => ws | Raise _ => [] end.

Definition scores43 : result scores * world nat :=
  pc_scores axis_svds Y43 1 (PyBool false) w0.

Definition res43 : scores :=
  match fst scores43 with Ok res => res | Raise _ => Scores Y43 end.

(** ** The rest of the notebook *)

(** The defaults of [wasserstein_dim_select(Y, split = 0.5, rmax = 50)]. *)
Definition default_split : Q := 1 # 2.

Definition default_rmax : Z := 50.

(** [np.vstack((a, b))] of two one-dimensional arrays: a 2-row array;
    [ValueError] when the lengths differ. *)
Definition vstack1d (a b : list R) : result ndarray :=
  if Nat.eqb (List.length a) (List.length b)
  then Ok (mkArray (List.length a) [a; b])
  else Raise ValueError.

(** [np.argmin(ws)]: the index of the first least entry; [ValueError] on an
    empty sequence. *)
Fixpoint argmin_from (best : nat) (least : R) (i : nat) (l : list R) : nat :=
  match l with
  | [] => best
  | x :: l' =>
      if Rlt_dec x least then argmin_from i x (S i) l'
      else argmin_from best least (S i) l'
  end.

Definition np_argmin (l : list R) : result nat :=
  match l with
  | [] => Raise ValueError
  | x :: l' => Ok (argmin_from 0 x 1 l')
  end.

(** [np.argmin(ws) + 1], the dimension the notebook selects. *)
Definition selected_dimension (ws : list R) : result nat :=
  match np_argmin ws with
  | Ok i => Ok (i + 1)
  | Raise e => Raise e
  end.

(** The sum of the diagonal, to count the directions a projection keeps. *)
Definition diagonal_sum (A : ndarray) : R :=
  sum_n (fun i => entry A i i) (Nat.min (nrows A) (ncols A)).

Section Sampling.

(** The state of numpy's random generator. *)
Variable rng_state : Type.

(** [np.random.uniform(low=, high=, size=n)]: [None] when numpy rejects the
    size with a [ValueError], as it does for a negative size and for one
    beyond the range of its integers. *)
Variable uniform : rng_state -> R -> R -> Z -> option (list R) * rng_state.

Definition make_circle (n : Z) (x y r : R) (g : rng_state)
  : result ndarray * rng_state :=
  match uniform g 0%R (2 * PI)%R n with
  | (Some s, g') =>
      (match vstack1d (map (fun t => (r * cos t + x)%R) s)
                      (map (fun t => (r * sin t + y)%R) s) with
       | Ok A => Ok (transpose A)
       | Raise e => Raise e
       end, g')
  | (None, g') => (Raise ValueError, g')
  end.

End Sampling.

(** [np.random.uniform] answers a size [n] only when [n >= 0], and then with
    [n] numbers.  Which sizes [n >= 0] it rejects is left open. *)
Definition uniform_contract (G : Type)
  (uniform : G -> R -> R -> Z -> option (list R) * G) : Prop :=
  forall g lo hi n,
    match fst (uniform g lo hi n) with
    | None => True
    | Some s => (0 <= n)%Z /\ List.length s = Z.to_nat n
    end.

(** A generator for the evaluations: [n] evenly spaced numbers from [lo]. *)
Definition grid_uniform (g : nat) (lo hi : R) (n : Z) : option (list R) * nat :=
  if (n <? 0)%Z then (None, S g)
  else (Some (map (fun i => (lo + (hi - lo) * INR i / INR (Z.to_nat n))%R)
                  (seq 0 (Z.to_nat n))), S g).

(** The point [row] lies on the circle of centre [(x, y)] and radius [|r|]. *)
Definition on_circle (x y r : R) (row : list R) : Prop :=
  exists px py,
    row = [px; py] /\ ((px - x) * (px - x) + (py - y) * (py - y) = r * r)%R.

(** A call of the transport solver on two uniform distributions of [n1] and
    [n2] points and a cost array of the matching shape. *)
Definition transport_call (n1 n2 : nat) (ev : event) : Prop :=
  exists a b C,
    ev = CallEmd2 a b C /\
    List.length a = n1 /\ List.length b = n2 /\
    Forall (fun x => (0 < x)%R) a /\ Forall (fun x => (0 < x)%R) b /\
    Rsum a = 1%R /\ Rsum b = 1%R /\
    shape C = (n1, n2) /\ well_shaped C = true /\ nonneg_entries C.

(** A solver whose answer depends on its state: the triplets of [k] axes with
    the singular values [1, ..., k], in this order when the state is even and
    in the reverse order when it is odd. *)
Definition flip_svds (st : nat) (A : ndarray) (k : Z)
  : option (ndarray * list R * ndarray) * nat :=
  if ((1 <=? k)%Z && (k <? min_shape A)%Z)%bool
  then
    let s := map (fun i => INR (S i)) (seq 0 (Z.to_nat k)) in
    let Vh := rows_upto (identity (ncols A)) k in
    (Some (cols_upto (identity (nrows A)) k,
           if Nat.even st then s else rev s,
           if Nat.even st then Vh else mkArray (ncols Vh) (rev (rows Vh))),
     S st)
  else (None, S st).

(** An elementwise power for the evaluations: the square for the exponent 2,
    [exp(r ln x)] otherwise. *)
Definition square_or_Rpower (x r : R) : R :=
  if Req_dec_T r 2 then (x * x)%R else Rpower x r.

(** The six features of a point [(a, b)] of the plane for the kernel
    [(<z, z'> + c) ** 2]. *)
Definition quadratic_features (c : R) (Z : ndarray) : ndarray :=
  build (nrows Z) 6
        (fun i k =>
           let a := entry Z i 0 in
           let b := entry Z i 1 in
           match k with
           | 0 => a * a
           | 1 => b * b
           | 2 => sqrt 2 * (a * b)
           | 3 => sqrt (2 * c) * a
           | 4 => sqrt (2 * c) * b
           | _ => c
           end)%R.


Definition Y63 : ndarray :=
  mkArray 3 [[3; 0; 0]; [0; 2; 0]; [0; 0; 1]; [3; 0; 1]; [0; 2; 1]; [1; 1; 1]]%R.

(** The answer [(U, s, Vh)] holds singular triplets of [X]: every right
    singular vector [Vh[a]] is sent by [X] to [s[a]] times the left singular
    vector [U[:, a]]. *)
Definition singular_triplets (X U : ndarray) (s : list R) (Vh : ndarray) : Prop :=
  forall a i,
    a < List.length s -> i < nrows X ->
    dot (nth i (rows X) []) (nth a (rows Vh) []) = (nth a s 0 * entry U i a)%R.

(** A diagonal 2-by-3 data set. *)
Definition Y23 : ndarray := mkArray 3 [[3; 0; 0]; [0; 2; 0]]%R.

(** The run of [pc_scores(Y23, 1)]. *)
Definition scores23 : result scores * world nat := pc_scores axis_svds Y23 1 PyNone w0.

Definition res23 : scores :=
  match fst scores23 with Ok res => res | Raise _ => Scores Y23 end.

(** * Properties *)

(** ** The model on small inputs *)

Example py_round_ties :
  py_round (1 # 2) = 0%Z /\ py_round (3 # 2) = 2%Z /\ py_round (5 # 2) = 2%Z /\
  py_round (9 # 5) = 2%Z /\ py_round (2 # 5) = 0%Z.
Proof. repeat split. Qed.

Example py_range_1_4 : py_range 1 4 = [1; 2; 3]%Z.
Proof. reflexivity. Qed.

Example slice_index_clamps :
  slice_index 4 2 = 2 /\ slice_index 4 7 = 4 /\ slice_index 4 (-1) = 3 /\
  slice_index 4 (-9) = 0.
Proof. repeat split. Qed.

Example train_size_Y43 : train_size Y43 (1 # 2) = 2%Z.
Proof. reflexivity. Qed.

Example halves_Y43 :
  rows_upto Y43 2 = mkArray 3 [[3; 0; 0]; [0; 2; 0]]%R /\
  rows_between Y43 2 4 = mkArray 3 [[3; 0; 1]; [0; 2; 1]]%R.
Proof. split; reflexivity. Qed.

Example transpose_Y43 :
  transpose Y43 = mkArray 4 [[3; 0; 3; 0]; [0; 2; 0; 2]; [0; 0; 1; 1]]%R.
Proof. reflexivity. Qed.

Example argsort_132 : argsort [1; 3; 2]%R = [0; 2; 1].
Proof.
  unfold argsort. simpl.
  repeat (destruct (Rle_dec _ _); try lra; simpl). reflexivity.
Qed.

Example take_reversed :
  take [1; 3; 2]%R (rev [0; 2; 1]) = Ok [3; 2; 1]%R /\
  take [1; 3; 2]%R [3] = Raise IndexError.
Proof. split; reflexivity. Qed.

(** The re-sort of an unsorted answer of the solver: the singular values
    [2, 3] with the axes [e1, e2] become [3, 2] with [e2, e1]. *)
Example resort_and_permute :
  take [2; 3]%R (rev (argsort [2; 3]%R)) = Ok [3; 2]%R /\
  take_rows (mkArray 3 [[1; 0; 0]; [0; 1; 0]]%R) (rev (argsort [2; 3]%R))
  = Ok (mkArray 3 [[0; 1; 0]; [1; 0; 0]]%R).
Proof.
  assert (E : argsort [2; 3]%R = [0; 1]).
  { unfold argsort. simpl. destruct (Rle_dec _ _); [reflexivity|lra]. }
  rewrite E. split; reflexivity.
Qed.

Example uniform_weights_0 : uniform_weights 0 = Raise ZeroDivisionError.
Proof. reflexivity. Qed.

(** ** Rounding and ranges *)

Lemma py_round_nonneg (x : Q) : (0 <= x)%Q -> (0 <= py_round x)%Z.
Proof.
  intros Hx. unfold py_round.
  assert (Hf : (0 <= Qfloor x)%Z).
  { change 0%Z with (Qfloor 0). now apply Qfloor_resp_le. }
  destruct (Qcompare _ _); [destruct (Z.even _)| |]; lia.
Qed.

Lemma py_range_length (lo hi : Z) : List.length (py_range lo hi) = Z.to_nat (hi - lo).
Proof. unfold py_range. now rewrite length_map, length_seq. Qed.


Lemma train_size_nonneg (Y : ndarray) (split : Q) :
  (0 < split)%Q -> (0 <= train_size Y split)%Z.
Proof.
  intros Hs. unfold train_size. apply py_round_nonneg.
  apply Qmult_le_0_compat.
  - change 0%Q with (inject_Z 0). rewrite <- Zle_Qle. lia.
  - now apply Qlt_le_weak.
Qed.

(** ** Shapes of slices *)

Lemma slice_index_le (len : nat) (i : Z) : slice_index len i <= len.
Proof. unfold slice_index. destruct (i <? 0)%Z eqn:E; lia. Qed.

Lemma slice_index_nonneg (len : nat) (i : Z) :
  (0 <= i)%Z -> slice_index len i = Nat.min (Z.to_nat i) len.
Proof. unfold slice_index. destruct (i <? 0)%Z eqn:E; lia. Qed.

Lemma nrows_rows_upto (A : ndarray) (stop : Z) :
  nrows (rows_upto A stop) = slice_index (nrows A) stop.
Proof.
  unfold rows_upto, nrows. simpl. rewrite length_firstn.
  pose proof (slice_index_le (List.length (rows A)) stop). lia.
Qed.

Lemma nrows_rows_between (A : ndarray) (start : Z) :
  (0 <= start)%Z ->
  nrows (rows_between A start (Z.of_nat (nrows A))) = nrows A - Z.to_nat start.
Proof.
  intros H. unfold rows_between, nrows, slice. simpl.
  rewrite length_firstn, length_skipn, !slice_index_nonneg by lia. lia.
Qed.

Lemma well_shaped_row (A : ndarray) (r : list R) :
  well_shaped A = true -> In r (rows A) -> List.length r = ncols A.
Proof.
  unfold well_shaped. rewrite forallb_forall. intros H Hin.
  now apply Nat.eqb_eq, H.
Qed.

Lemma well_shaped_nth (A : ndarray) (i : nat) :
  well_shaped A = true -> i < nrows A -> List.length (nth i (rows A) []) = ncols A.
Proof. intros H Hi. apply well_shaped_row; [exact H|]. now apply nth_In. Qed.

(** ** Sorting by [argsort] *)

Lemma insert_index_perm (s : list R) (i : nat) (l : list nat) :
  Permutation (insert_index s i l) (i :: l).
Proof.
  induction l as [|j l IH]; simpl; [reflexivity|].
  destruct (Rle_dec _ _); [reflexivity|].
  rewrite IH. apply perm_swap.
Qed.

Lemma insertion_perm (s : list R) (l : list nat) :
  Permutation (fold_right (insert_index s) [] l) l.
Proof.
  induction l as [|i l IH]; simpl; [reflexivity|].
  rewrite insert_index_perm. now constructor.
Qed.

Lemma argsort_perm (s : list R) : Permutation (argsort s) (seq 0 (List.length s)).
Proof. apply insertion_perm. Qed.

Lemma argsort_rev_perm (s : list R) :
  Permutation (rev (argsort s)) (seq 0 (List.length s)).
Proof. rewrite <- Permutation_rev. apply argsort_perm. Qed.

Lemma argsort_rev_in (s : list R) (i : nat) :
  In i (rev (argsort s)) -> i < List.length s.
Proof.
  intros H. apply (Permutation_in _ (argsort_rev_perm s)) in H.
  apply in_seq in H. lia.
Qed.

Lemma insert_index_sorted (s : list R) (i : nat) (l : list nat) :
  ascending_along s l -> ascending_along s (insert_index s i l).
Proof.
  unfold ascending_along.
  induction l as [|j l IH]; simpl; intros H.
  - repeat constructor.
  - inversion H as [|? ? Hl Hj]; subst.
    destruct (Rle_dec _ _) as [Hle|Hnle].
    + constructor; [exact H|]. constructor; [exact Hle|].
      rewrite Forall_forall in *. intros x Hx. specialize (Hj x Hx). lra.
    + constructor; [now apply IH|].
      apply (Permutation_Forall (Permutation_sym (insert_index_perm s i l))).
      constructor; [lra|exact Hj].
Qed.

Lemma argsort_sorted (s : list R) : ascending_along s (argsort s).
Proof.
  unfold argsort. induction (seq 0 (List.length s)) as [|i l IH]; simpl.
  - constructor.
  - now apply insert_index_sorted.
Qed.

Lemma StronglySorted_snoc (A : Type) (P : A -> A -> Prop) (l : list A) (a : A) :
  StronglySorted P l -> Forall (fun x => P x a) l -> StronglySorted P (l ++ [a]).
Proof.
  induction 1 as [|b l Hl IH Hb]; simpl; intros HF.
  - repeat constructor.
  - inversion HF; subst. constructor; [now apply IH|].
    apply Forall_app. split; [exact Hb|]. now repeat constructor.
Qed.

Lemma StronglySorted_rev (A : Type) (P : A -> A -> Prop) (l : list A) :
  StronglySorted P l -> StronglySorted (fun x y => P y x) (rev l).
Proof.
  induction 1 as [|a l Hl IH Ha]; simpl; [constructor|].
  apply StronglySorted_snoc; [exact IH|]. now apply Forall_rev.
Qed.

Lemma StronglySorted_map (A B : Type) (f : A -> B) (P : B -> B -> Prop) (l : list A) :
  StronglySorted (fun x y => P (f x) (f y)) l -> StronglySorted P (map f l).
Proof.
  induction 1 as [|a l Hl IH Ha]; simpl; constructor; [exact IH|].
  now apply Forall_map.
Qed.

(** ** Indexing by an index array *)

Lemma take_Ok (A : Type) (d : A) (l : list A) (idx : list nat) :
  forall xs, take l idx = Ok xs ->
             xs = map (fun i => nth i l d) idx /\
             Forall (fun i => i < List.length l) idx.
Proof.
  induction idx as [|i idx IH]; simpl; intros xs H.
  - inversion H. auto.
  - destruct (nth_error l i) as [x|] eqn:E; [|discriminate].
    destruct (take l idx) as [ys|e]; [|discriminate].
    inversion H; subst. destruct (IH ys eq_refl) as [-> HF].
    split.
    + f_equal. symmetry. now apply nth_error_nth.
    + constructor; [|exact HF]. apply nth_error_Some. congruence.
Qed.

Lemma take_in_range (A : Type) (l : list A) (idx : list nat) :
  Forall (fun i => i < List.length l) idx -> exists xs, take l idx = Ok xs.
Proof.
  induction 1 as [|i idx Hi _ [ys IH]]; simpl; [now exists []|].
  destruct (nth_error l i) as [x|] eqn:E.
  - rewrite IH. now exists (x :: ys).
  - apply nth_error_None in E. lia.
Qed.

Lemma take_length (A : Type) (l : list A) (idx : list nat) (xs : list A) :
  take l idx = Ok xs -> List.length xs = List.length idx.
Proof.
  intros H. destruct l as [|d l].
  - destruct idx as [|i idx]; simpl in H; [now inversion H|].
    now destruct i.
  - apply (take_Ok d) in H as [-> _]. apply length_map.
Qed.

(** [s[idx]], for [idx = s.argsort()[::-1]], is [s] in descending order. *)
Lemma take_argsort_descending (s s' : list R) :
  take s (rev (argsort s)) = Ok s' -> descending s'.
Proof.
  intros H. apply (take_Ok 0%R) in H as [-> _].
  unfold descending. apply StronglySorted_map.
  pose proof (StronglySorted_rev (argsort_sorted s)) as Hs.
  eapply StronglySorted_ind with (P := fun l => StronglySorted _ l); [| |exact Hs].
  - constructor.
  - intros a l Hl IH Ha. constructor; [exact IH|].
    eapply Forall_impl; [|exact Ha]. simpl. intros; lra.
Qed.

Lemma take_argsort_total (s : list R) : exists s', take s (rev (argsort s)) = Ok s'.
Proof.
  apply take_in_range, Forall_forall. intros i. apply argsort_rev_in.
Qed.

Lemma take_rows_argsort_total (s : list R) (Vh : ndarray) :
  List.length s <= nrows Vh ->
  exists Vh', take_rows Vh (rev (argsort s)) = Ok Vh'.
Proof.
  intros Hk. unfold take_rows.
  destruct (@take_in_range _ (rows Vh) (rev (argsort s))) as [rs ->].
  - apply Forall_forall. intros i Hi. apply argsort_rev_in in Hi.
    unfold nrows in Hk. lia.
  - eauto.
Qed.

Lemma take_rows_shape (Vh Vh' : ndarray) (idx : list nat) :
  take_rows Vh idx = Ok Vh' ->
  ncols Vh' = ncols Vh /\ nrows Vh' = List.length idx /\
  rows Vh' = map (fun i => nth i (rows Vh) []) idx.
Proof.
  unfold take_rows. destruct (take (rows Vh) idx) as [rs|e] eqn:E; [|discriminate].
  intros H. inversion H; subst. simpl. unfold nrows. simpl.
  split; [reflexivity|]. split; [now apply take_length in E|].
  now apply (take_Ok []) in E as [-> _].
Qed.

(** ** Shapes along the loop body *)

Lemma nrows_transpose (A : ndarray) : nrows (transpose A) = ncols A.
Proof. unfold transpose, nrows. simpl. now rewrite length_map, length_seq. Qed.

Lemma nrows_mat_mul (A B : ndarray) : nrows (mat_mul A B) = nrows A.
Proof. unfold mat_mul, nrows. simpl. now rewrite length_map. Qed.

Lemma nrows_cols_upto (A : ndarray) (stop : Z) : nrows (cols_upto A stop) = nrows A.
Proof. unfold cols_upto, nrows. simpl. now rewrite length_map. Qed.

Lemma projection_Ok (Vh : ndarray) (r : Z) :
  projection Vh r = Ok (mat_mul (cols_upto (transpose Vh) r) (rows_upto Vh r)).
Proof.
  unfold projection, matmul. rewrite nrows_rows_upto. simpl.
  now rewrite Nat.eqb_refl.
Qed.

Lemma projection_shape (Vh P : ndarray) (r : Z) :
  projection Vh r = Ok P -> nrows P = ncols Vh /\ ncols P = ncols Vh.
Proof.
  rewrite projection_Ok. intros H. inversion H; subst.
  rewrite nrows_mat_mul, nrows_cols_upto, nrows_transpose. auto.
Qed.

Lemma uniform_weights_Ok (n : nat) (a : list R) :
  uniform_weights n = Ok a -> n <> 0 /\ a = repeat (1 / INR n)%R n.
Proof.
  unfold uniform_weights. destruct (Nat.eqb_spec n 0); [discriminate|].
  intros H. now inversion H.
Qed.

(** ** Finite sums *)

Lemma sum_n_S (f : nat -> R) (n : nat) :
  sum_n f (S n) = (f 0%nat + sum_n (fun k => f (S k)) n)%R.
Proof. unfold sum_n. simpl. now rewrite <- seq_shift, map_map. Qed.

Lemma sum_n_ext (f g : nat -> R) (n : nat) :
  (forall k, k < n -> f k = g k) -> sum_n f n = sum_n g n.
Proof.
  intros H. unfold sum_n. f_equal. apply map_ext_in.
  intros k Hk. apply in_seq in Hk. apply H. lia.
Qed.

Lemma sum_n_zero (n : nat) : sum_n (fun _ => 0%R) n = 0%R.
Proof. unfold sum_n. induction (seq 0 n); simpl; [reflexivity|]. unfold Rsum in *. lra. Qed.

Lemma sum_n_plus (f g : nat -> R) (n : nat) :
  sum_n (fun k => (f k + g k)%R) n = (sum_n f n + sum_n g n)%R.
Proof.
  unfold sum_n. induction (seq 0 n) as [|k l IH]; simpl; [lra|].
  unfold Rsum in *. rewrite IH. lra.
Qed.

Lemma sum_n_scal_l (c : R) (f : nat -> R) (n : nat) :
  (c * sum_n f n)%R = sum_n (fun k => (c * f k)%R) n.
Proof.
  unfold sum_n. induction (seq 0 n) as [|k l IH]; simpl; [lra|].
  unfold Rsum in *. rewrite <- IH. lra.
Qed.

Lemma sum_n_scal_r (c : R) (f : nat -> R) (n : nat) :
  (sum_n f n * c)%R = sum_n (fun k => (f k * c)%R) n.
Proof.
  rewrite Rmult_comm, sum_n_scal_l. apply sum_n_ext. intros; lra.
Qed.

Lemma sum_n_swap (f : nat -> nat -> R) (n m : nat) :
  sum_n (fun i => sum_n (fun j => f i j) m) n =
  sum_n (fun j => sum_n (fun i => f i j) n) m.
Proof.
  revert f. induction n as [|n IH]; intros f.
  - unfold sum_n at 1. simpl. symmetry. apply sum_n_zero.
  - rewrite sum_n_S, IH. rewrite <- sum_n_plus. apply sum_n_ext.
    intros j _. now rewrite sum_n_S.
Qed.

(** A sum against the Kronecker delta picks one term. *)
Lemma sum_n_delta (f : nat -> R) (a n : nat) :
  a < n ->
  sum_n (fun b => ((if Nat.eqb a b then 1 else 0) * f b)%R) n = f a.
Proof.
  revert f a. induction n as [|n IH]; intros f a Ha; [lia|].
  rewrite sum_n_S. destruct a as [|a]; simpl.
  - rewrite (@sum_n_ext _ (fun _ => 0%R)) by (intros; lra).
    rewrite sum_n_zero. lra.
  - rewrite (IH (fun k => f (S k)) a) by lia. lra.
Qed.

Lemma dot_map (A : Type) (f g : A -> R) (l : list A) :
  dot (map f l) (map g l) = Rsum (map (fun k => (f k * g k)%R) l).
Proof.
  unfold dot. induction l as [|k l IH]; simpl; [reflexivity|].
  unfold Rsum in *. now rewrite IH.
Qed.

Lemma dot_comm (u v : list R) : dot u v = dot v u.
Proof.
  unfold dot. revert v. induction u as [|x u IH]; intros [|y v]; simpl; try reflexivity.
  unfold Rsum in *. rewrite IH. lra.
Qed.

(** ** Arrays given by their entries *)

Lemma build_ext (m n : nat) (f g : nat -> nat -> R) :
  (forall i j, i < m -> j < n -> f i j = g i j) -> build m n f = build m n g.
Proof.
  intros H. unfold build. f_equal. apply map_ext_in. intros i Hi.
  apply map_ext_in. intros j Hj. apply in_seq in Hi, Hj. apply H; lia.
Qed.

Lemma entry_build (m n : nat) (f : nat -> nat -> R) (i j : nat) :
  i < m -> j < n -> entry (build m n f) i j = f i j.
Proof.
  intros Hi Hj. unfold entry, build. simpl.
  rewrite (nth_indep _ [] (map (f 0) (seq 0 n))) by now rewrite length_map, length_seq.
  rewrite (map_nth (fun i => map (f i) (seq 0 n)) (seq 0 m) 0 i).
  rewrite seq_nth by exact Hi. simpl.
  rewrite (nth_indep _ 0%R (f i 0)) by now rewrite length_map, length_seq.
  rewrite (map_nth (f i) (seq 0 n) 0 j). now rewrite seq_nth.
Qed.

Lemma list_as_map_seq (A : Type) (d : A) (l : list A) :
  l = map (fun i => nth i l d) (seq 0 (List.length l)).
Proof.
  apply (nth_ext _ _ d d).
  - now rewrite length_map, length_seq.
  - intros i Hi. symmetry.
    rewrite (nth_indep _ d ((fun i => nth i l d) 0))
      by (rewrite length_map, length_seq; exact Hi).
    rewrite (map_nth (fun i => nth i l d)). now rewrite seq_nth.
Qed.

Lemma firstn_seq (k a n : nat) : firstn k (seq a n) = seq a (Nat.min k n).
Proof.
  revert a n. induction k as [|k IH]; intros a [|n]; simpl; try reflexivity.
  now rewrite IH.
Qed.

Lemma build_entry (A : ndarray) :
  well_shaped A = true -> A = build (nrows A) (ncols A) (entry A).
Proof.
  intros H. destruct A as [p rs]. unfold build, nrows, entry. simpl rows. simpl ncols.
  f_equal. rewrite (list_as_map_seq [] rs) at 1.
  apply map_ext_in. intros i Hi. apply in_seq in Hi.
  assert (Hl : List.length (nth i rs []) = p).
  { apply (@well_shaped_nth (mkArray p rs) i H). unfold nrows. simpl. lia. }
  rewrite (list_as_map_seq 0%R (nth i rs [])) at 1. now rewrite Hl.
Qed.

Lemma well_shaped_build (m n : nat) (f : nat -> nat -> R) :
  well_shaped (build m n f) = true.
Proof.
  unfold well_shaped, build. simpl. apply forallb_forall. intros r Hr.
  apply in_map_iff in Hr as (i & <- & _).
  rewrite length_map, length_seq. apply Nat.eqb_refl.
Qed.

Lemma nrows_build (m n : nat) (f : nat -> nat -> R) : nrows (build m n f) = m.
Proof. unfold nrows, build. simpl. now rewrite length_map, length_seq. Qed.

Lemma nth_map_seq (f : nat -> R) (n j : nat) :
  j < n -> nth j (map f (seq 0 n)) 0%R = f j.
Proof.
  intros Hj. rewrite (nth_indep _ 0%R (f 0)) by now rewrite length_map, length_seq.
  rewrite (map_nth f (seq 0 n) 0 j). now rewrite seq_nth.
Qed.

Lemma transpose_build (m n : nat) (f : nat -> nat -> R) :
  transpose (build m n f) = build n m (fun i j => f j i).
Proof.
  unfold transpose. rewrite nrows_build. unfold build at 2. simpl ncols. unfold build at 2.
  f_equal. apply map_ext_in. intros j Hj. apply in_seq in Hj.
  unfold column, build. simpl. rewrite map_map. apply map_ext.
  intros i. apply nth_map_seq. lia.
Qed.

Lemma mat_mul_build (m n q : nat) (f g : nat -> nat -> R) :
  mat_mul (build m n f) (build n q g) =
  build m q (fun i j => sum_n (fun k => (f i k * g k j)%R) n).
Proof.
  unfold mat_mul. rewrite transpose_build. unfold build. simpl. f_equal.
  rewrite map_map. apply map_ext. intros i.
  rewrite map_map. apply map_ext. intros j.
  now rewrite dot_map.
Qed.

Lemma map_entries_build (h : R -> R) (m n : nat) (f : nat -> nat -> R) :
  map_entries h (build m n f) = build m n (fun i j => h (f i j)).
Proof.
  unfold map_entries, build. simpl. f_equal. rewrite map_map. apply map_ext.
  intros i. now rewrite map_map.
Qed.

Lemma rows_upto_build (m n : nat) (f : nat -> nat -> R) (r : Z) :
  rows_upto (build m n f) r = build (slice_index m r) n f.
Proof.
  unfold rows_upto. rewrite nrows_build. unfold build. simpl. f_equal.
  rewrite firstn_map, firstn_seq. f_equal. f_equal.
  pose proof (slice_index_le m r). lia.
Qed.

Lemma cols_upto_build (m n : nat) (f : nat -> nat -> R) (r : Z) :
  cols_upto (build m n f) r = build m (slice_index n r) f.
Proof.
  unfold cols_upto, build. simpl. f_equal. rewrite map_map. apply map_ext.
  intros i. rewrite firstn_map, firstn_seq. f_equal. f_equal.
  pose proof (slice_index_le n r). lia.
Qed.

Lemma identity_build (n : nat) :
  identity n = build n n (fun i j => if Nat.eqb i j then 1%R else 0%R).
Proof. reflexivity. Qed.

(** ** The projection onto the leading right singular vectors *)

Lemma as_build (A : ndarray) :
  well_shaped A = true -> exists v, A = build (nrows A) (ncols A) v.
Proof. intros H. exists (entry A). now apply build_entry. Qed.

Lemma projection_build (k p : nat) (v : nat -> nat -> R) (r : Z) :
  mat_mul (cols_upto (transpose (build k p v)) r) (rows_upto (build k p v) r) =
  build p p (fun i j => sum_n (fun a => (v a i * v a j)%R) (slice_index k r)).
Proof.
  now rewrite transpose_build, cols_upto_build, rows_upto_build, mat_mul_build.
Qed.

Lemma orthonormal_build (k p : nat) (v : nat -> nat -> R) (a b : nat) :
  orthonormal_rows (build k p v) -> a < k -> b < k ->
  sum_n (fun c => (v a c * v b c)%R) p = if Nat.eqb a b then 1%R else 0%R.
Proof.
  unfold orthonormal_rows.
  rewrite transpose_build, mat_mul_build, nrows_build, identity_build.
  intros H Ha Hb. apply (f_equal (fun A => entry A a b)) in H.
  now rewrite !entry_build in H.
Qed.

(** The entries of [P @ P] are those of [P]. *)
Lemma projection_sum (k p r' : nat) (v : nat -> nat -> R) (i j : nat) :
  orthonormal_rows (build k p v) -> r' <= k ->
  sum_n (fun c => (sum_n (fun a => v a i * v a c) r' *
                   sum_n (fun b => v b c * v b j) r')%R) p =
  sum_n (fun a => (v a i * v a j)%R) r'.
Proof.
  intros Ho Hr.
  transitivity
    (sum_n (fun c => sum_n (fun a => sum_n (fun b =>
       (v a i * v b j * (v a c * v b c))%R) r') r') p).
  { apply sum_n_ext. intros c _. rewrite sum_n_scal_r.
    apply sum_n_ext. intros a _. rewrite sum_n_scal_l.
    apply sum_n_ext. intros b _. ring. }
  rewrite sum_n_swap. apply sum_n_ext. intros a Ha.
  rewrite sum_n_swap.
  transitivity
    (sum_n (fun b => ((if Nat.eqb a b then 1 else 0) * (v a i * v b j))%R) r').
  { apply sum_n_ext. intros b Hb. rewrite <- sum_n_scal_l.
    rewrite (@orthonormal_build k p v a b Ho) by lia. ring. }
  now rewrite (sum_n_delta (fun b => (v a i * v b j)%R)).
Qed.

(** C5. For every rank [r] and every [Vh] with orthonormal rows, the
    projection [P = Vh.T[:,:r] @ Vh[:r,:]] is a [p]-by-[p] array, symmetric
    and idempotent; so [Ytrain @ P.T] is [Ytrain @ P], an array of the shape of
    [Ytrain]: the projected points stay in the ambient space. *)
Theorem C5_projection_symmetric_idempotent (Vh : ndarray) (r : Z) :
  well_shaped Vh = true ->
  orthonormal_rows Vh ->
  exists P,
    projection Vh r = Ok P /\
    shape P = (ncols Vh, ncols Vh) /\
    well_shaped P = true /\
    transpose P = P /\
    matmul P P = Ok P /\
    forall Ytrain,
      ncols Ytrain = ncols Vh ->
      matmul Ytrain (transpose P) = matmul Ytrain P /\
      exists Yproj,
        matmul Ytrain (transpose P) = Ok Yproj /\
        shape Yproj = shape Ytrain.
Proof.
  intros Hw Ho. rewrite projection_Ok.
  destruct (as_build Vh Hw) as [v E].
  set (k := nrows Vh) in *. set (p := ncols Vh) in *. clearbody k p.
  subst Vh. clear Hw. rewrite projection_build.
  set (P := build p p _).
  assert (HT : transpose P = P).
  { unfold P. rewrite transpose_build. apply build_ext.
    intros i j _ _. apply sum_n_ext. intros a _. ring. }
  assert (Hn : nrows P = p) by apply nrows_build.
  assert (Hc : ncols P = p) by reflexivity.
  exists P. split; [reflexivity|].
  split; [unfold shape; now rewrite Hn, Hc|].
  split; [apply well_shaped_build|]. split; [exact HT|].
  split.
  - unfold matmul. rewrite Hn, Hc, Nat.eqb_refl. f_equal.
    unfold P. rewrite mat_mul_build. apply build_ext.
    intros i j _ _. apply (@projection_sum k p _ v i j Ho), slice_index_le.
  - intros Ytrain Hp. rewrite HT. split; [reflexivity|].
    exists (mat_mul Ytrain P). unfold matmul.
    rewrite Hn, Hp, Nat.eqb_refl. split; [reflexivity|].
    unfold shape. rewrite nrows_mat_mul. simpl ncols. now rewrite Hp.
Qed.

(** ** The polynomial kernel *)

(** C10. For every array [Z], shift [c] and exponent [r],
    [poly_kernel(Z, c, r)] is defined and equal to its transpose. *)
Theorem C10_poly_kernel_symmetric (np_power : R -> R -> R) (Z : ndarray) (c r : R) :
  well_shaped Z = true ->
  exists K,
    poly_kernel np_power Z c r = Ok K /\
    shape K = (nrows Z, nrows Z) /\
    transpose K = K.
Proof.
  intros Hw. destruct (as_build Z Hw) as [z E].
  set (n := nrows Z) in *. set (p := ncols Z) in *. clearbody n p.
  subst Z. clear Hw.
  unfold poly_kernel, matmul. rewrite nrows_transpose. simpl ncols.
  rewrite Nat.eqb_refl, transpose_build, mat_mul_build.
  unfold add_scalar. rewrite !map_entries_build.
  eexists. split; [reflexivity|]. split.
  - unfold shape. now rewrite nrows_build.
  - rewrite transpose_build. apply build_ext. intros i j _ _.
    do 2 f_equal. apply sum_n_ext. intros k _. ring.
Qed.

(** ** The monad *)

Section Runs.

Variable solver_state : Type.
Variable svds_solver :
  solver_state -> ndarray -> Z -> option (ndarray * list R * ndarray) * solver_state.
Variable emd2_solver :
  solver_state -> list R -> list R -> ndarray -> R * solver_state.

Abbreviation W := (world solver_state).

Lemma bind_Ok (A B : Type) (c : M solver_state A) (k : A -> M solver_state B)
      (w w' : W) (b : B) :
  bind c k w = (Ok b, w') ->
  exists a w1, c w = (Ok a, w1) /\ k a w1 = (Ok b, w').
Proof.
  unfold bind. destruct (c w) as [[a|e] w1]; intros H; [|discriminate].
  now exists a, w1.
Qed.

Lemma lift_Ok (A : Type) (r : result A) (w w' : W) (a : A) :
  lift r w = (Ok a, w') -> r = Ok a /\ w' = w.
Proof. unfold lift. intros H. now inversion H. Qed.

Lemma ret_Ok (A : Type) (x a : A) (w w' : W) :
  ret x w = (Ok a, w') -> a = x /\ w' = w.
Proof. unfold ret. intros H. now inversion H. Qed.

Lemma for_append_length (A B : Type) (body : A -> M solver_state B) (xs : list A) :
  forall (w w' : W) (bs : list B),
    for_append xs body w = (Ok bs, w') -> List.length bs = List.length xs.
Proof.
  induction xs as [|x xs IH]; simpl; intros w w' bs H.
  - apply ret_Ok in H as [-> _]. reflexivity.
  - apply bind_Ok in H as (b & w1 & _ & H).
    apply bind_Ok in H as (bs' & w2 & Hbs & H).
    apply ret_Ok in H as [-> _]. simpl. f_equal. eauto.
Qed.


Lemma for_append_Forall2 (A B : Type) (body : A -> M solver_state B) (xs : list A) :
  forall (w w' : W) (bs : list B),
    for_append xs body w = (Ok bs, w') ->
    Forall2 (fun x b => exists w1 w2, body x w1 = (Ok b, w2)) xs bs.
Proof.
  induction xs as [|x xs IH]; simpl; intros w w' bs H.
  - apply ret_Ok in H as [-> _]. constructor.
  - apply bind_Ok in H as (b & w1 & Hb & H).
    apply bind_Ok in H as (bs' & w2 & Hbs & H).
    apply ret_Ok in H as [-> _]. constructor; eauto.
Qed.

(** A successful call went through the solver, the sort and the loop. *)
Lemma wasserstein_dim_select_Ok (Y : ndarray) (split : Q) (rmax : Z)
      (w w' : W) (ws : list R) :
  wasserstein_dim_select svds_solver emd2_solver Y split rmax w = (Ok ws, w') ->
  let train := train_size Y split in
  let Ytrain := rows_upto Y train in
  let Ytest := rows_between Y train (Z.of_nat (nrows Y)) in
  exists U s Vh st s' Vh',
    svds_solver (solver w) Ytrain rmax = (Some (U, s, Vh), st) /\
    take s (rev (argsort s)) = Ok s' /\
    take_rows Vh (rev (argsort s)) = Ok Vh' /\
    for_append (py_range 1 (Z.min train rmax + 1))
               (wasserstein_at emd2_solver Ytrain Ytest Vh')
               (mkWorld st (trace w ++ [CallSvds Ytrain rmax])) = (Ok ws, w').
Proof.
  unfold wasserstein_dim_select. intros H.
  apply bind_Ok in H as ([[U s] Vh] & w1 & Hsvd & H). cbv zeta in H.
  apply bind_Ok in H as (s' & w2 & Hs & H). apply lift_Ok in Hs as [Hs ->].
  apply bind_Ok in H as (Vh' & w2 & HV & H). apply lift_Ok in HV as [HV ->].
  unfold svds in Hsvd.
  destruct (svds_solver _ _ _) as [[usv|] st] eqn:E; [|discriminate].
  inversion Hsvd; subst; clear Hsvd.
  exists U, s, Vh, st, s', Vh'. auto.
Qed.

(** What one round of the loop does when it succeeds. *)
Lemma wasserstein_at_Ok (Ytrain Ytest Vh : ndarray) (r : Z) (w w' : W) (d : R) :
  wasserstein_at emd2_solver Ytrain Ytest Vh r w = (Ok d, w') ->
  exists P Yproj C,
    projection Vh r = Ok P /\
    matmul Ytrain (transpose P) = Ok Yproj /\
    ot_dist Yproj Ytest = Ok C /\
    nrows Yproj <> 0 /\ nrows Ytest <> 0 /\
    let a := repeat (1 / INR (nrows Yproj))%R (nrows Yproj) in
    let b := repeat (1 / INR (nrows Ytest))%R (nrows Ytest) in
    d = fst (emd2_solver (solver w) a b C) /\
    w' = mkWorld (snd (emd2_solver (solver w) a b C)) (trace w ++ [CallEmd2 a b C]).
Proof.
  unfold wasserstein_at. intros H.
  apply bind_Ok in H as (P & w1 & HP & H). apply lift_Ok in HP as [HP ->].
  apply bind_Ok in H as (Yproj & w1 & HY & H). apply lift_Ok in HY as [HY ->].
  apply bind_Ok in H as (C & w1 & HC & H). apply lift_Ok in HC as [HC ->].
  apply bind_Ok in H as (a & w1 & Ha & H). apply lift_Ok in Ha as [Ha ->].
  apply bind_Ok in H as (b & w1 & Hb & H). apply lift_Ok in Hb as [Hb ->].
  apply bind_Ok in H as (W1 & w1 & HW & H). apply ret_Ok in H as [-> ->].
  apply uniform_weights_Ok in Ha as [Hn1 ->].
  apply uniform_weights_Ok in Hb as [Hn2 ->].
  exists P, Yproj, C. repeat (split; [assumption|]).
  unfold emd2 in HW. destruct (emd2_solver _ _ _ _) as [d0 st]. simpl.
  inversion HW; subst. auto.
Qed.

(** One round of the loop cannot raise when the shapes agree and neither half
    of the data is empty. *)
Lemma wasserstein_at_total (Ytrain Ytest Vh : ndarray) (r : Z) (w : W) :
  ncols Vh = ncols Ytrain -> ncols Ytest = ncols Ytrain ->
  nrows Ytrain <> 0 -> nrows Ytest <> 0 ->
  exists d w', wasserstein_at emd2_solver Ytrain Ytest Vh r w = (Ok d, w').
Proof.
  intros HV HT Hn1 Hn2. unfold wasserstein_at, bind, lift.
  rewrite projection_Ok.
  set (P := mat_mul _ _).
  assert (HP : nrows P = ncols Vh /\ ncols P = ncols Vh).
  { apply (@projection_shape Vh P r), projection_Ok. }
  destruct HP as [HP1 HP2].
  unfold matmul. rewrite nrows_transpose, HP2, HV, Nat.eqb_refl.
  unfold ot_dist. simpl ncols. rewrite HP1, HV, HT, Nat.eqb_refl.
  unfold uniform_weights. rewrite nrows_mat_mul.
  destruct (Nat.eqb_spec (nrows Ytrain) 0); [contradiction|].
  destruct (Nat.eqb_spec (nrows Ytest) 0); [contradiction|].
  unfold emd2. destruct (emd2_solver _ _ _ _) as [d st]. unfold ret. eauto.
Qed.

Lemma for_append_total (A B : Type) (body : A -> M solver_state B) (xs : list A) :
  (forall x w, exists b w', body x w = (Ok b, w')) ->
  forall w, exists bs w', for_append xs body w = (Ok bs, w').
Proof.
  intros Hb. induction xs as [|x xs IH]; simpl; intros w.
  - unfold ret. eauto.
  - unfold bind. destruct (Hb x w) as (b & w1 & ->).
    destruct (IH w1) as (bs & w2 & ->). unfold ret. eauto.
Qed.

(** The call succeeds when the split leaves both halves nonempty and the
    solver accepts [rmax]. *)
Lemma wasserstein_dim_select_total (Y : ndarray) (split : Q) (rmax : Z) (w : W) :
  svds_contract svds_solver ->
  let train := train_size Y split in
  (1 <= train < Z.of_nat (nrows Y))%Z ->
  (1 <= rmax < min_shape (rows_upto Y train))%Z ->
  exists ws w', wasserstein_dim_select svds_solver emd2_solver Y split rmax w = (Ok ws, w').
Proof.
  intros Hc train Ht Hr. unfold wasserstein_dim_select. fold train.
  unfold bind at 1. unfold svds.
  specialize (Hc (solver w) (rows_upto Y train) rmax).
  destruct (svds_solver _ _ _) as [[[[U s] Vh]|] st]; simpl in Hc; [|lia].
  destruct Hc as (_ & Hs & Hk & Hp & _).
  cbv zeta. unfold bind, lift.
  destruct (take_argsort_total s) as [s' ->].
  destruct (@take_rows_argsort_total s Vh) as [Vh' HV]; [lia|]. rewrite HV.
  apply take_rows_shape in HV as (HV & _ & _).
  apply for_append_total. intros r w1. apply wasserstein_at_total.
  - now rewrite HV, Hp.
  - reflexivity.
  - rewrite nrows_rows_upto, slice_index_nonneg by lia. lia.
  - rewrite nrows_rows_between by lia. lia.
Qed.

(** C1. On a valid input on which the call succeeds, the returned list has
    exactly [rtry = min(round(n * split), rmax)] entries, one for each
    candidate rank of [range(1, rtry + 1)], in that order: the entry of rank
    [r] is the distance returned by the round of rank [r]. *)
Theorem C1_length_is_rtry (Y : ndarray) (split : Q) (rmax : Z)
        (w w' : W) (ws : list R) :
  valid_input Y split rmax ->
  wasserstein_dim_select svds_solver emd2_solver Y split rmax w = (Ok ws, w') ->
  let train := py_round (inject_Z (Z.of_nat (nrows Y)) * split) in
  let rtry := Z.min train rmax in
  Z.of_nat (List.length ws) = rtry /\
  exists Vh,
    Forall2 (fun r d =>
               exists w1 w2,
                 wasserstein_at emd2_solver (rows_upto Y train)
                   (rows_between Y train (Z.of_nat (nrows Y))) Vh r w1 = (Ok d, w2))
            (py_range 1 (rtry + 1)) ws.
Proof.
  intros [(Hn & Hp & Hs0 & Hs1) Hr] H train rtry.
  apply wasserstein_dim_select_Ok in H as (U & s & Vh & st & s' & Vh' & _ & _ & _ & H).
  pose proof (for_append_length _ _ _ H) as Hlen.
  apply for_append_Forall2 in H.
  pose proof (train_size_nonneg Y Hs0) as Ht.
  unfold train_size in Hlen, Ht, H. fold train in Hlen, Ht, H. fold rtry in Hlen, H.
  split; [|now exists Vh'].
  rewrite Hlen, py_range_length. lia.
Qed.

(** The solver's [ValueError] is the result of the call. *)
Lemma svds_rejects (Y : ndarray) (split : Q) (rmax : Z) (w : W) :
  svds_contract svds_solver ->
  (rmax < 1 \/ min_shape (rows_upto Y (train_size Y split)) <= rmax)%Z ->
  fst (wasserstein_dim_select svds_solver emd2_solver Y split rmax w) = Raise ValueError.
Proof.
  intros Hc Hr. unfold wasserstein_dim_select, bind at 1, svds.
  specialize (Hc (solver w) (rows_upto Y (train_size Y split)) rmax).
  destruct (svds_solver _ _ _) as [[[[U s] Vh]|] st]; simpl in Hc; [lia|].
  reflexivity.
Qed.

(** With an empty test half the first round of the loop divides by zero. *)
Lemma empty_test_half_raises (Y : ndarray) (split : Q) (rmax : Z) (w w' : W) (ws : list R) :
  svds_contract svds_solver ->
  (0 < split)%Q ->
  (Z.of_nat (nrows Y) <= train_size Y split)%Z ->
  2 <= nrows Y ->
  wasserstein_dim_select svds_solver emd2_solver Y split rmax w <> (Ok ws, w').
Proof.
  intros Hc Hs Ht Hn H.
  apply wasserstein_dim_select_Ok in H as (U & s & Vh & st & s' & Vh' & Hsvd & _ & _ & H).
  specialize (Hc (solver w) (rows_upto Y (train_size Y split)) rmax).
  rewrite Hsvd in Hc. simpl in Hc. destruct Hc as (Hr & _).
  unfold py_range in H.
  replace (Z.to_nat (Z.min (train_size Y split) rmax + 1 - 1))
    with (S (Z.to_nat (Z.min (train_size Y split) rmax - 1))) in H by lia.
  simpl in H.
  apply bind_Ok in H as (d & w1 & Hd & _).
  apply wasserstein_at_Ok in Hd as (P & Yproj & C & _ & _ & _ & _ & Hn2 & _).
  rewrite nrows_rows_between in Hn2 by (pose proof (train_size_nonneg Y Hs); lia).
  lia.
Qed.







(** C8, as the code has it.  The solver is taken to answer only a rank
    [1 <= k < min(A.shape)].  When it accepts the call and
    [round(n * split) >= 0], [rmax < min(train, p)]: so [train > rmax],
    [rtry = rmax], and a returned list has [rmax] entries.  When it accepts
    the call and [round(n * split) < 0], [rtry] is [train], the binding term
    of the minimum, and a returned list is empty. *)
Theorem C8_rtry_is_rmax (Y : ndarray) (split : Q) (rmax : Z) (w : W)
        (U : ndarray) (s : list R) (Vh : ndarray) :
  svds_accepts_in_range svds_solver ->
  let train := train_size Y split in
  fst (svds_solver (solver w) (rows_upto Y train) rmax) = Some (U, s, Vh) ->
  ((0 <= train)%Z ->
   (rmax < Z.min train (Z.of_nat (ncols Y)))%Z /\
   (rmax < train)%Z /\
   Z.min train rmax = rmax /\
   forall ws w',
     wasserstein_dim_select svds_solver emd2_solver Y split rmax w = (Ok ws, w') ->
     Z.of_nat (List.length ws) = rmax) /\
  ((train < 0)%Z ->
   Z.min train rmax = train /\
   forall ws w',
     wasserstein_dim_select svds_solver emd2_solver Y split rmax w = (Ok ws, w') ->
     ws = []).
Proof.
  intros Hc train Hsvd.
  apply Hc in Hsvd as Hr.
  assert (Hlen : forall ws w',
    wasserstein_dim_select svds_solver emd2_solver Y split rmax w = (Ok ws, w') ->
    List.length ws = Z.to_nat (Z.min train rmax)).
  { intros ws w' H.
    apply wasserstein_dim_select_Ok in H as (U' & s' & Vh' & st & s'' & Vh'' & _ & _ & _ & H).
    apply for_append_length in H. rewrite H, py_range_length. fold train. f_equal. lia. }
  split.
  - intros Ht0.
    unfold min_shape in Hr. rewrite nrows_rows_upto in Hr.
    rewrite slice_index_nonneg in Hr by lia. simpl ncols in Hr.
    assert (Hlt : (rmax < Z.min train (Z.of_nat (ncols Y)))%Z) by lia.
    repeat split; try lia.
    intros ws w' H. rewrite (Hlen ws w' H). lia.
  - intros Hneg. split; [lia|].
    intros ws w' H. apply Hlen in H.
    replace (Z.to_nat (Z.min train rmax)) with 0 in H by lia.
    now destruct ws.
Qed.

(** C3, as the code has it.  The solver is taken to reject a rank [k], with
    [ValueError], exactly when [k < 1] or [k >= min(A.shape)], and to answer
    every other rank with [k] singular values and a [k]-by-[p] array [Vh].
    When [train == 1] or [rmax == 1] on a valid input with
    [1 <= train <= n - 1], [rtry] is 1.  The call then returns a list of one
    entry exactly when [rmax == 1], [train >= 2] and [p >= 2]; when
    [train == 1] or [p == 1] the solver rejects every rank and the call raises
    [ValueError]. *)
Theorem C3_rank_one_boundary (Y : ndarray) (split : Q) (rmax : Z) (w : W) :
  svds_contract svds_solver ->
  valid_input Y split rmax ->
  let n := Z.of_nat (nrows Y) in
  let train := train_size Y split in
  (1 <= train <= n - 1)%Z ->
  (train = 1 \/ rmax = 1)%Z ->
  Z.min train rmax = 1%Z /\
  ((exists W1 w',
       wasserstein_dim_select svds_solver emd2_solver Y split rmax w = (Ok [W1], w'))
   <-> (rmax = 1%Z /\ (2 <= train)%Z /\ 2 <= ncols Y)) /\
  ((train = 1%Z \/ ncols Y = 1) ->
   fst (wasserstein_dim_select svds_solver emd2_solver Y split rmax w) = Raise ValueError).
Proof.
  intros Hc [(Hn & Hp & Hs0 & Hs1) Hr] n train Ht Hb.
  assert (Hmin : min_shape (rows_upto Y train) = Z.min train (Z.of_nat (ncols Y))).
  { unfold min_shape. rewrite nrows_rows_upto, slice_index_nonneg by lia.
    simpl ncols. lia. }
  assert (Hraise : (train = 1%Z \/ ncols Y = 1) ->
    fst (wasserstein_dim_select svds_solver emd2_solver Y split rmax w) = Raise ValueError).
  { intros H. apply svds_rejects; [exact Hc|]. fold train. lia. }
  split; [lia|]. split; [|exact Hraise].
  split.
  - intros (W1 & w' & Hok).
    destruct (Z.eq_dec train 1) as [E|E].
    { pose proof (f_equal fst Hok) as F. rewrite Hraise in F by auto. discriminate. }
    destruct (Nat.eq_dec (ncols Y) 1) as [E'|E'].
    { pose proof (f_equal fst Hok) as F. rewrite Hraise in F by auto. discriminate. }
    lia.
  - intros (-> & Ht2 & Hp2).
    destruct (@wasserstein_dim_select_total Y split 1%Z w Hc) as (ws & w' & Hok).
    + fold train. subst n. lia.
    + fold train. lia.
    + pose proof Hok as Hlen.
      apply wasserstein_dim_select_Ok in Hlen
        as (U' & s' & Vh' & st & s'' & Vh'' & _ & _ & _ & Hlen).
      apply for_append_length in Hlen. rewrite py_range_length in Hlen.
      fold train in Hlen. replace (Z.to_nat (Z.min train 1 + 1 - 1)) with 1 in Hlen by lia.
      destruct ws as [|W1 [|? ?]]; try discriminate. now exists W1, w'.
Qed.

(** ** The loop: results and trace *)

Lemma loop_trace (Ytrain Ytest Vh : ndarray) (xs : list Z) :
  forall (w w' : W) (ws : list R),
    for_append xs (wasserstein_at emd2_solver Ytrain Ytest Vh) w = (Ok ws, w') ->
    exists evs,
      trace w' = trace w ++ evs /\
      Forall2 (round_of Ytrain Ytest Vh) xs evs /\
      filter is_svds_call evs = [].
Proof.
  induction xs as [|x xs IH]; simpl; intros w w' ws H.
  - apply ret_Ok in H as [_ ->]. exists []. rewrite app_nil_r. repeat constructor.
  - apply bind_Ok in H as (b & w1 & Hb & H).
    apply bind_Ok in H as (bs' & w2 & Hbs & H).
    apply ret_Ok in H as [_ ->].
    apply wasserstein_at_Ok in Hb as (P & Yproj & C & HP & HY & HC & _ & _ & _ & Hw1).
    apply IH in Hbs as (evs & Htr & HF & Hfil).
    eexists (_ :: evs). split; [|split].
    + rewrite Htr, Hw1. simpl. rewrite <- app_assoc. reflexivity.
    + constructor; [|exact HF]. exists P, Yproj, C. auto.
    + simpl. exact Hfil.
Qed.

(** The trace of a round and of the loop, whether they return or raise:
    calls of the transport solver only. *)
Lemma wasserstein_at_trace (Ytrain Ytest Vh : ndarray) (r : Z) (w : W) :
  exists evs,
    trace (snd (wasserstein_at emd2_solver Ytrain Ytest Vh r w)) = trace w ++ evs /\
    filter is_svds_call evs = [].
Proof.
  unfold wasserstein_at, bind, lift. rewrite projection_Ok.
  assert (Hnil : exists evs, trace w = trace w ++ evs /\ filter is_svds_call evs = []).
  { exists []. now rewrite app_nil_r. }
  destruct (matmul _ _) as [Yproj|e]; [|exact Hnil].
  destruct (ot_dist _ _) as [C|e]; [|exact Hnil].
  destruct (uniform_weights (nrows Yproj)) as [a|e]; [|exact Hnil].
  destruct (uniform_weights (nrows Ytest)) as [b|e]; [|exact Hnil].
  unfold emd2. destruct (emd2_solver _ _ _ _) as [d st]. simpl.
  now exists [CallEmd2 a b C].
Qed.

Lemma for_append_trace (Ytrain Ytest Vh : ndarray) (xs : list Z) :
  forall w : W,
  exists evs,
    trace (snd (for_append xs (wasserstein_at emd2_solver Ytrain Ytest Vh) w))
    = trace w ++ evs /\
    filter is_svds_call evs = [].
Proof.
  induction xs as [|x xs IH]; simpl; intros w.
  - exists []. now rewrite app_nil_r.
  - unfold bind at 1.
    destruct (wasserstein_at_trace Ytrain Ytest Vh x w) as (ev1 & H1 & F1).
    destruct (wasserstein_at _ _ _ _ _ w) as [[d|e] w1]; simpl in H1.
    + unfold bind at 1. destruct (IH w1) as (ev2 & H2 & F2).
      destruct (for_append _ _ w1) as [[ds|e] w2]; simpl in H2 |- *.
      * exists (ev1 ++ ev2). rewrite H2, H1, app_assoc, filter_app, F1, F2. auto.
      * exists (ev1 ++ ev2). rewrite H2, H1, app_assoc, filter_app, F1, F2. auto.
    + simpl. now exists ev1.
Qed.

(** C4. Every call, whether it returns or raises, asks the solver for one
    truncated SVD, of [Ytrain] at rank [rmax], before anything else.  When the
    call returns, the singular values the solver answered are put in
    descending order by a permutation [idx] of their positions, the rows of
    [Vh] are permuted by the same [idx], and the projection of every rank of
    [range(1, rtry + 1)] is built from the permuted [Vh]. *)
Theorem C4_one_svd_sorted_descending (Y : ndarray) (split : Q) (rmax : Z) (w : W) :
  let train := train_size Y split in
  let rtry := Z.min train rmax in
  let Ytrain := rows_upto Y train in
  let Ytest := rows_between Y train (Z.of_nat (nrows Y)) in
  (exists evs,
      trace (snd (wasserstein_dim_select svds_solver emd2_solver Y split rmax w))
      = trace w ++ CallSvds Ytrain rmax :: evs /\
      filter is_svds_call evs = []) /\
  forall ws w',
    wasserstein_dim_select svds_solver emd2_solver Y split rmax w = (Ok ws, w') ->
    exists U s Vh st s' Vh' evs,
      svds_solver (solver w) Ytrain rmax = (Some (U, s, Vh), st) /\
      let idx := rev (argsort s) in
      Permutation idx (seq 0 (List.length s)) /\
      take s idx = Ok s' /\
      s' = map (fun i => nth i s 0%R) idx /\
      descending s' /\
      take_rows Vh idx = Ok Vh' /\
      rows Vh' = map (fun i => nth i (rows Vh) []) idx /\
      trace w' = trace w ++ CallSvds Ytrain rmax :: evs /\
      Forall2 (round_of Ytrain Ytest Vh') (py_range 1 (rtry + 1)) evs.
Proof.
  intros train rtry Ytrain Ytest. split.
  - unfold wasserstein_dim_select. fold train. fold rtry. fold Ytrain. fold Ytest.
    unfold bind at 1. unfold svds.
    destruct (svds_solver _ _ _) as [[[[U s] Vh]|] st]; simpl snd;
      [|exists []; simpl; auto].
    cbv zeta. unfold bind, lift.
    destruct (take s _) as [s'|e]; [|exists []; simpl; auto].
    destruct (take_rows Vh _) as [Vh'|e]; [|exists []; simpl; auto].
    destruct (for_append_trace Ytrain Ytest Vh' (py_range 1 (rtry + 1))
                (mkWorld st (trace w ++ [CallSvds Ytrain rmax]))) as (evs & Htr & Hfil).
    exists evs. rewrite Htr. simpl. now rewrite <- app_assoc.
  - intros ws w' H.
    apply wasserstein_dim_select_Ok in H
      as (U & s & Vh & st & s' & Vh' & Hsvd & Hs & HV & H).
    apply loop_trace in H as (evs & Htr & HF & Hfil). simpl in Htr.
    exists U, s, Vh, st, s', Vh', evs.
    split; [exact Hsvd|]. split; [apply argsort_rev_perm|].
    split; [exact Hs|]. split; [now apply (take_Ok 0%R) in Hs|].
    split; [now apply take_argsort_descending with (s := s)|].
    split; [exact HV|]. split; [now apply take_rows_shape in HV|].
    split; [now rewrite Htr, <- app_assoc|exact HF].
Qed.

(** ** Nonnegative distances *)

Lemma Rsum_nonneg (l : list R) : Forall (fun x => (0 <= x)%R) l -> (0 <= Rsum l)%R.
Proof. induction 1; simpl; lra. Qed.

Lemma euclidean_nonneg (x y : list R) : (0 <= euclidean x y)%R.
Proof. unfold euclidean. apply sqrt_pos. Qed.

Lemma ot_dist_nonneg (X1 X2 C : ndarray) : ot_dist X1 X2 = Ok C -> nonneg_entries C.
Proof.
  unfold ot_dist. destruct (Nat.eqb _ _); [|discriminate].
  intros H. inversion H; subst. unfold nonneg_entries. simpl.
  apply Forall_map, Forall_forall. intros x _.
  apply Forall_map, Forall_forall. intros y _. apply euclidean_nonneg.
Qed.

(** C6. Every entry of the returned list is nonnegative, provided the
    transport solver returns a nonnegative value on a nonnegative cost array
    and uniform weights. *)
Theorem C6_entries_nonnegative (Y : ndarray) (split : Q) (rmax : Z)
        (w w' : W) (ws : list R) :
  emd2_nonneg emd2_solver ->
  wasserstein_dim_select svds_solver emd2_solver Y split rmax w = (Ok ws, w') ->
  Forall (fun d => (0 <= d)%R) ws.
Proof.
  intros Hnn H.
  apply wasserstein_dim_select_Ok in H as (U & s & Vh & st & s' & Vh' & _ & _ & _ & H).
  apply for_append_Forall2 in H.
  induction H as [|r d rs ds (w1 & w2 & Hd) _ IH]; constructor; [|exact IH].
  apply wasserstein_at_Ok in Hd as (P & Yproj & C & _ & _ & HC & Hn1 & Hn2 & -> & _).
  apply Hnn; [|exact Hn1|exact Hn2]. now apply ot_dist_nonneg in HC.
Qed.

(** ** Determinism *)

Lemma stateless_ret (A : Type) (a : A) : stateless solver_state (ret a).
Proof. intros w1 w2. reflexivity. Qed.

Lemma stateless_lift (A : Type) (r : result A) : stateless solver_state (lift r).
Proof. intros w1 w2. reflexivity. Qed.

Lemma stateless_bind (A B : Type) (c : M solver_state A) (k : A -> M solver_state B) :
  stateless solver_state c ->
  (forall a, stateless solver_state (k a)) ->
  stateless solver_state (bind c k).
Proof.
  intros Hc Hk w1 w2. unfold bind. specialize (Hc w1 w2).
  destruct (c w1) as [[a1|e1] w1'], (c w2) as [[a2|e2] w2']; simpl in Hc;
    try discriminate; inversion Hc; subst; [apply Hk|reflexivity].
Qed.

Lemma stateless_for_append (A B : Type) (body : A -> M solver_state B) (xs : list A) :
  (forall x, stateless solver_state (body x)) -> stateless solver_state (for_append xs body).
Proof.
  intros Hb. induction xs as [|x xs IH]; simpl.
  - apply stateless_ret.
  - apply stateless_bind; [apply Hb|]. intros b.
    apply stateless_bind; [exact IH|]. intros bs. apply stateless_ret.
Qed.

Lemma stateless_svds (A : ndarray) (k : Z) :
  deterministic_svds svds_solver -> stateless solver_state (svds svds_solver A k).
Proof.
  intros Hd w1 w2. unfold svds. specialize (Hd (solver w1) (solver w2) A k).
  destruct (svds_solver (solver w1) A k) as [[u1|] st1],
           (svds_solver (solver w2) A k) as [[u2|] st2];
    simpl in Hd; try discriminate; [inversion Hd|]; reflexivity.
Qed.

Lemma stateless_emd2 (a b : list R) (C : ndarray) :
  deterministic_emd2 emd2_solver -> stateless solver_state (emd2 emd2_solver a b C).
Proof.
  intros Hd w1 w2. unfold emd2. specialize (Hd (solver w1) (solver w2) a b C).
  destruct (emd2_solver (solver w1) a b C), (emd2_solver (solver w2) a b C).
  simpl in *. now subst.
Qed.

(** C7. With deterministic solvers, two calls on the same [(Y, split, rmax)]
    have the same result, whatever the solvers' state at each call. *)
Theorem C7_deterministic (Y : ndarray) (split : Q) (rmax : Z) (w1 w2 : W) :
  deterministic_svds svds_solver ->
  deterministic_emd2 emd2_solver ->
  fst (wasserstein_dim_select svds_solver emd2_solver Y split rmax w1) =
  fst (wasserstein_dim_select svds_solver emd2_solver Y split rmax w2).
Proof.
  intros Hs He. revert w1 w2. change (stateless solver_state (wasserstein_dim_select
    svds_solver emd2_solver Y split rmax)).
  unfold wasserstein_dim_select.
  apply stateless_bind; [now apply stateless_svds|]. intros [[U s] Vh]. cbv zeta.
  apply stateless_bind; [apply stateless_lift|]. intros s'.
  apply stateless_bind; [apply stateless_lift|]. intros Vh'.
  apply stateless_for_append. intros r. unfold wasserstein_at.
  repeat (apply stateless_bind; [apply stateless_lift|]; intros ?).
  apply stateless_bind; [now apply stateless_emd2|]. intros d. apply stateless_ret.
Qed.

(** ** [pc_scores] *)

(** C9. When [pc_scores(X, r, return_eig)] returns, the solver answered
    [(U, s0, Vh0)]; with [idx = s0.argsort()[::-1]], [s = s0[idx]] is in
    descending order, [Vh = Vh0[idx,:]] and [Y = X @ Vh.T].  The call returns
    [Y] alone when [return_eig] is [None], and the pair [(Y, s)] for every
    other value of [return_eig], [False] and [0] included. *)
Theorem C9_pc_scores_result (X : ndarray) (r : Z) (return_eig : pyobj)
        (w w' : W) (res : scores) :
  pc_scores svds_solver X r return_eig w = (Ok res, w') ->
  exists U s0 Vh0 st s Vh,
    svds_solver (solver w) X r = (Some (U, s0, Vh0), st) /\
    let idx := rev (argsort s0) in
    let Y := mat_mul X (transpose Vh) in
    Permutation idx (seq 0 (List.length s0)) /\
    take s0 idx = Ok s /\
    descending s /\
    take_rows Vh0 idx = Ok Vh /\
    rows Vh = map (fun i => nth i (rows Vh0) []) idx /\
    matmul X (transpose Vh) = Ok Y /\
    (res = Scores Y <-> return_eig = PyNone) /\
    (res = ScoresAndEig Y s <-> return_eig <> PyNone) /\
    pc_scores svds_solver X r PyNone w = (Ok (Scores Y), w') /\
    pc_scores svds_solver X r (PyBool false) w = (Ok (ScoresAndEig Y s), w') /\
    pc_scores svds_solver X r (PyInt 0) w = (Ok (ScoresAndEig Y s), w') /\
    forall v, v <> PyNone ->
              pc_scores svds_solver X r v w = (Ok (ScoresAndEig Y s), w').
Proof.
  intros H. unfold pc_scores in H.
  apply bind_Ok in H as ([[U s0] Vh0] & w1 & Hsvd & H). cbv zeta in H.
  apply bind_Ok in H as (s & w2 & Hs & H). apply lift_Ok in Hs as [Hs ->].
  apply bind_Ok in H as (Vh & w2 & HV & H). apply lift_Ok in HV as [HV ->].
  apply bind_Ok in H as (Y & w2 & HY & H). apply lift_Ok in HY as [HY ->].
  assert (Hrun : forall v,
    pc_scores svds_solver X r v w =
    (Ok (if is_not_None v then ScoresAndEig Y s else Scores Y), w1)).
  { intros v. unfold pc_scores, bind at 1. rewrite Hsvd.
    cbv zeta. unfold bind, lift. rewrite Hs, HV, HY.
    now destruct (is_not_None v). }
  unfold svds in Hsvd.
  destruct (svds_solver _ _ _) as [[usv|] st] eqn:E; [|discriminate].
  inversion Hsvd; subst usv w1; clear Hsvd.
  assert (EY : Y = mat_mul X (transpose Vh)).
  { unfold matmul in HY. destruct (Nat.eqb _ _); [|discriminate]. now inversion HY. }
  assert (Hres : res = (if is_not_None return_eig then ScoresAndEig Y s else Scores Y)
                 /\ w' = mkWorld st (trace w ++ [CallSvds X r])).
  { destruct (is_not_None return_eig); apply ret_Ok in H as [-> ->]; auto. }
  destruct Hres as [-> ->]. subst Y.
  exists U, s0, Vh0, st, s, Vh. cbv zeta.
  split; [reflexivity|]. split; [apply argsort_rev_perm|].
  split; [exact Hs|]. split; [now apply take_argsort_descending with (s := s0)|].
  split; [exact HV|]. split; [now apply take_rows_shape in HV|].
  split; [exact HY|].
  split; [destruct return_eig; simpl; split; congruence|].
  split; [destruct return_eig; simpl; split; congruence|].
  split; [apply (Hrun PyNone)|]. split; [apply (Hrun (PyBool false))|].
  split; [apply (Hrun (PyInt 0))|].
  intros v Hv. rewrite Hrun. now destruct v.
Qed.

End Runs.

(** ** The concrete solvers meet the contracts *)

Lemma axis_svds_contract : svds_contract axis_svds.
Proof.
  intros st A k. unfold axis_svds.
  destruct (1 <=? k)%Z eqn:E1; simpl; [|lia].
  destruct (k <? min_shape A)%Z eqn:E2; simpl; [|lia].
  apply Z.leb_le in E1. apply Z.ltb_lt in E2.
  split; [lia|]. rewrite length_map, length_seq. split; [reflexivity|].
  rewrite identity_build, rows_upto_build, nrows_build.
  rewrite slice_index_nonneg by lia. unfold min_shape in E2.
  split; [lia|]. split; [reflexivity|]. apply well_shaped_build.
Qed.

Lemma dot_nonneg (u v : list R) :
  Forall (fun x => (0 <= x)%R) u -> Forall (fun x => (0 <= x)%R) v -> (0 <= dot u v)%R.
Proof.
  intros Hu. revert v. unfold dot.
  induction Hu as [|x u Hx _ IH]; intros v Hv; simpl; [lra|].
  destruct Hv as [|y v Hy Hv]; simpl; [lra|].
  specialize (IH v Hv). unfold Rsum in *. nra.
Qed.

Lemma uniform_nonneg (n : nat) : Forall (fun x => (0 <= x)%R) (repeat (1 / INR n)%R n).
Proof.
  destruct n as [|n]; [constructor|].
  apply Forall_forall. intros x Hx. apply repeat_spec in Hx. subst x.
  apply Rlt_le, Rdiv_lt_0_compat; [lra|]. apply lt_0_INR. lia.
Qed.

Lemma product_emd2_nonneg : emd2_nonneg product_emd2.
Proof.
  intros st n1 n2 C HC _ _. simpl.
  apply dot_nonneg; [apply uniform_nonneg|].
  apply Forall_map. eapply Forall_impl; [|exact HC].
  intros row Hrow. apply dot_nonneg; [apply uniform_nonneg|exact Hrow].
Qed.

Lemma axis_svds_deterministic : deterministic_svds axis_svds.
Proof. intros st1 st2 A k. unfold axis_svds. now destruct (_ && _)%bool. Qed.

Lemma product_emd2_deterministic : deterministic_emd2 product_emd2.
Proof. intros st1 st2 a b C. reflexivity. Qed.

(** ** The claims on the 4-by-3 data set *)

Lemma svds_contract_accepts_in_range (S : Type)
  (svds_solver : S -> ndarray -> Z -> option (ndarray * list R * ndarray) * S) :
  svds_contract svds_solver -> svds_accepts_in_range svds_solver.
Proof.
  intros Hc st A k usv H. specialize (Hc st A k). rewrite H in Hc.
  destruct usv as [[U s] Vh]. tauto.
Qed.

Lemma axis_svds_accepts_in_range : svds_accepts_in_range axis_svds.
Proof. exact (svds_contract_accepts_in_range axis_svds_contract). Qed.

Lemma valid_Y43 : valid_input Y43 (1 # 2) 1.
Proof. repeat split; try reflexivity; unfold nrows; simpl; lia. Qed.

Lemma run43_Ok : run43 = (Ok ws43, snd run43).
Proof. vm_compute. reflexivity. Qed.

Lemma scores43_Ok : scores43 = (Ok res43, snd scores43).
Proof. vm_compute. reflexivity. Qed.

Lemma orthonormal_Y22 : orthonormal_rows Y22.
Proof.
  unfold orthonormal_rows, Y22, mat_mul, transpose, column, identity, dot, nrows.
  simpl. repeat f_equal; lra.
Qed.

(** C1 on [Y43] with [split = 1/2] and [rmax = 1]: one entry. *)
Lemma C1_witness :
  valid_input Y43 (1 # 2) 1 /\
  wasserstein_dim_select axis_svds product_emd2 Y43 (1 # 2) 1 w0 = (Ok ws43, snd run43) /\
  Z.of_nat (List.length ws43)
  = Z.min (py_round (inject_Z (Z.of_nat (nrows Y43)) * (1 # 2))) 1 /\
  exists Vh,
    Forall2 (fun r d =>
               exists w1 w2,
                 wasserstein_at product_emd2
                   (rows_upto Y43 (py_round (inject_Z (Z.of_nat (nrows Y43)) * (1 # 2))))
                   (rows_between Y43
                      (py_round (inject_Z (Z.of_nat (nrows Y43)) * (1 # 2)))
                      (Z.of_nat (nrows Y43)))
                   Vh r w1 = (Ok d, w2))
            (py_range 1 (Z.min (py_round (inject_Z (Z.of_nat (nrows Y43)) * (1 # 2))) 1 + 1))
            ws43.
Proof.
  split; [exact valid_Y43|]. split; [exact run43_Ok|].
  exact (@C1_length_is_rtry nat axis_svds product_emd2 Y43 (1 # 2) 1%Z w0 (snd run43)
           ws43 valid_Y43 run43_Ok).
Defined.





Lemma train_Y43 : (1 <= train_size Y43 (1 # 2) <= Z.of_nat (nrows Y43) - 1)%Z.
Proof. vm_compute. split; discriminate. Qed.

(** C3 on [Y43] with [split = 1/2] and [rmax = 1]: [train] is 2. *)
Lemma C3_witness :
  svds_contract axis_svds /\
  valid_input Y43 (1 # 2) 1 /\
  (1 <= train_size Y43 (1 # 2) <= Z.of_nat (nrows Y43) - 1)%Z /\
  (train_size Y43 (1 # 2) = 1 \/ 1 = 1)%Z /\
  Z.min (train_size Y43 (1 # 2)) 1 = 1%Z /\
  ((exists W1 w',
       wasserstein_dim_select axis_svds product_emd2 Y43 (1 # 2) 1 w0 = (Ok [W1], w'))
   <-> (1%Z = 1%Z /\ (2 <= train_size Y43 (1 # 2))%Z /\ 2 <= ncols Y43)) /\
  ((train_size Y43 (1 # 2) = 1%Z \/ ncols Y43 = 1) ->
   fst (wasserstein_dim_select axis_svds product_emd2 Y43 (1 # 2) 1 w0) = Raise ValueError).
Proof.
  split; [exact axis_svds_contract|]. split; [exact valid_Y43|].
  split; [exact train_Y43|]. split; [right; reflexivity|].
  exact (@C3_rank_one_boundary nat axis_svds product_emd2 Y43 (1 # 2) 1%Z w0
           axis_svds_contract valid_Y43 train_Y43 (or_intror eq_refl)).
Defined.

(** C3, as the claim states it, fails on the 2-by-2 data set with
    [split = 1/2] and [rmax = 1]: the input is valid, [train] is 1, and the
    solver, which obeys its contract, rejects rank 1 for the one-row training
    half; the call raises [ValueError]. *)
Lemma C3_counterexample :
  svds_contract axis_svds /\
  valid_input Y22 (1 # 2) 1 /\
  train_size Y22 (1 # 2) = 1%Z /\
  fst (wasserstein_dim_select axis_svds product_emd2 Y22 (1 # 2) 1 w0) = Raise ValueError /\
  ~ (forall (Y : ndarray) (split : Q) (rmax : Z),
        valid_input Y split rmax ->
        (train_size Y split = 1 \/ rmax = 1)%Z ->
        Z.min (train_size Y split) rmax = 1%Z /\
        exists W1 w',
          wasserstein_dim_select axis_svds product_emd2 Y split rmax w0 = (Ok [W1], w')).
Proof.
  assert (Hv : valid_input Y22 (1 # 2) 1).
  { repeat split; try reflexivity; unfold nrows; simpl; lia. }
  assert (Hr : fst (wasserstein_dim_select axis_svds product_emd2 Y22 (1 # 2) 1 w0)
               = Raise ValueError) by (vm_compute; reflexivity).
  split; [exact axis_svds_contract|]. split; [exact Hv|].
  split; [reflexivity|]. split; [exact Hr|].
  intros H. destruct (H Y22 (1 # 2)%Q 1%Z Hv (or_intror eq_refl)) as (_ & W1 & w' & Hok).
  rewrite Hok in Hr. discriminate.
Qed.

(** C4 on the run of [Y43] with [split = 1/2] and [rmax = 1]. *)
Lemma C4_witness :
  wasserstein_dim_select axis_svds product_emd2 Y43 (1 # 2) 1 w0 = (Ok ws43, snd run43) /\
  exists U s Vh st s' Vh' evs,
    axis_svds (solver w0) (rows_upto Y43 (train_size Y43 (1 # 2))) 1
    = (Some (U, s, Vh), st) /\
    Permutation (rev (argsort s)) (seq 0 (List.length s)) /\
    take s (rev (argsort s)) = Ok s' /\
    s' = map (fun i => nth i s 0%R) (rev (argsort s)) /\
    descending s' /\
    take_rows Vh (rev (argsort s)) = Ok Vh' /\
    rows Vh' = map (fun i => nth i (rows Vh) []) (rev (argsort s)) /\
    trace (snd run43)
    = trace w0 ++ CallSvds (rows_upto Y43 (train_size Y43 (1 # 2))) 1 :: evs /\
    Forall2 (round_of (rows_upto Y43 (train_size Y43 (1 # 2)))
                      (rows_between Y43 (train_size Y43 (1 # 2)) (Z.of_nat (nrows Y43)))
                      Vh')
            (py_range 1 (Z.min (train_size Y43 (1 # 2)) 1 + 1)) evs.
Proof.
  split; [exact run43_Ok|].
  exact (proj2 (@C4_one_svd_sorted_descending nat axis_svds product_emd2 Y43 (1 # 2)
                  1%Z w0) ws43 (snd run43) run43_Ok).
Defined.

(** C5 for the coordinate axes of the plane at rank 1. *)
Lemma C5_witness :
  well_shaped Y22 = true /\
  orthonormal_rows Y22 /\
  exists P,
    projection Y22 1 = Ok P /\
    shape P = (ncols Y22, ncols Y22) /\
    well_shaped P = true /\
    transpose P = P /\
    matmul P P = Ok P /\
    forall Ytrain,
      ncols Ytrain = ncols Y22 ->
      matmul Ytrain (transpose P) = matmul Ytrain P /\
      exists Yproj,
        matmul Ytrain (transpose P) = Ok Yproj /\ shape Yproj = shape Ytrain.
Proof.
  split; [reflexivity|]. split; [exact orthonormal_Y22|].
  exact (@C5_projection_symmetric_idempotent Y22 1%Z eq_refl orthonormal_Y22).
Defined.

(** C6 on the run of [Y43], with the cost of the product plan. *)
Lemma C6_witness :
  emd2_nonneg product_emd2 /\
  wasserstein_dim_select axis_svds product_emd2 Y43 (1 # 2) 1 w0 = (Ok ws43, snd run43) /\
  Forall (fun d => (0 <= d)%R) ws43.
Proof.
  split; [exact product_emd2_nonneg|]. split; [exact run43_Ok|].
  exact (@C6_entries_nonnegative nat axis_svds product_emd2 Y43 (1 # 2) 1%Z w0
           (snd run43) ws43 product_emd2_nonneg run43_Ok).
Defined.

(** C7 for two calls on [Y43], the second one after the first. *)
Lemma C7_witness :
  deterministic_svds axis_svds /\
  deterministic_emd2 product_emd2 /\
  fst (wasserstein_dim_select axis_svds product_emd2 Y43 (1 # 2) 1 w0) =
  fst (wasserstein_dim_select axis_svds product_emd2 Y43 (1 # 2) 1 (snd run43)).
Proof.
  split; [exact axis_svds_deterministic|]. split; [exact product_emd2_deterministic|].
  exact (@C7_deterministic nat axis_svds product_emd2 Y43 (1 # 2) 1%Z w0 (snd run43)
           axis_svds_deterministic product_emd2_deterministic).
Defined.

Lemma axis_svds_Y43 :
  fst (axis_svds (solver w0) (rows_upto Y43 (train_size Y43 (1 # 2))) 1)
  = Some (mkArray 1 [[1]; [0]], [Rabs 3], mkArray 3 [[1; 0; 0]])%R.
Proof. vm_compute. reflexivity. Qed.

Lemma train_Y43_nonneg : (0 <= train_size Y43 (1 # 2))%Z.
Proof. vm_compute. discriminate. Qed.

(** C8 on [Y43]: the solver accepts rank 1 on the 2-by-3 training half. *)
Lemma C8_witness :
  svds_accepts_in_range axis_svds /\
  fst (axis_svds (solver w0) (rows_upto Y43 (train_size Y43 (1 # 2))) 1)
  = Some (mkArray 1 [[1]; [0]], [Rabs 3], mkArray 3 [[1; 0; 0]])%R /\
  (0 <= train_size Y43 (1 # 2))%Z /\
  (1 < Z.min (train_size Y43 (1 # 2)) (Z.of_nat (ncols Y43)))%Z /\
  (1 < train_size Y43 (1 # 2))%Z /\
  Z.min (train_size Y43 (1 # 2)) 1 = 1%Z /\
  forall ws w',
    wasserstein_dim_select axis_svds product_emd2 Y43 (1 # 2) 1 w0 = (Ok ws, w') ->
    Z.of_nat (List.length ws) = 1%Z.
Proof.
  split; [exact axis_svds_accepts_in_range|].
  split; [exact axis_svds_Y43|]. split; [exact train_Y43_nonneg|].
  exact (proj1 (@C8_rtry_is_rmax nat axis_svds product_emd2 Y43 (1 # 2) 1%Z w0 _ _ _
                  axis_svds_accepts_in_range axis_svds_Y43) train_Y43_nonneg).
Defined.

(** C8, as the claim states it, fails on [Y43] with [split = -1/2] and
    [rmax = 1]: [train] is [-2], the solver accepts rank 1 on the two rows of
    [Y[:-2,:]], yet [train < rmax], [rtry = min(train, rmax)] is [train], and
    the returned list is empty, not of length [rmax]. *)
Lemma C8_counterexample :
  svds_contract axis_svds /\
  train_size Y43 (- 1 # 2) = (-2)%Z /\
  fst (axis_svds (solver w0) (rows_upto Y43 (train_size Y43 (- 1 # 2))) 1)
  = Some (mkArray 1 [[1]; [0]], [Rabs 3], mkArray 3 [[1; 0; 0]])%R /\
  Z.min (train_size Y43 (- 1 # 2)) 1 = (-2)%Z /\
  fst (wasserstein_dim_select axis_svds product_emd2 Y43 (- 1 # 2) 1 w0) = Ok [] /\
  ~ (forall (Y : ndarray) (split : Q) (rmax : Z) (U : ndarray) (s : list R) (Vh : ndarray),
        fst (axis_svds (solver w0) (rows_upto Y (train_size Y split)) rmax)
        = Some (U, s, Vh) ->
        (rmax < train_size Y split)%Z /\
        Z.min (train_size Y split) rmax = rmax /\
        forall ws w',
          wasserstein_dim_select axis_svds product_emd2 Y split rmax w0 = (Ok ws, w') ->
          Z.of_nat (List.length ws) = rmax).
Proof.
  assert (Hs : fst (axis_svds (solver w0) (rows_upto Y43 (train_size Y43 (- 1 # 2))) 1)
               = Some (mkArray 1 [[1]; [0]], [Rabs 3], mkArray 3 [[1; 0; 0]])%R)
    by (vm_compute; reflexivity).
  split; [exact axis_svds_contract|]. split; [reflexivity|].
  split; [exact Hs|]. split; [reflexivity|].
  split; [vm_compute; reflexivity|].
  intros H. destruct (H Y43 (- 1 # 2)%Q 1%Z _ _ _ Hs) as (Hlt & _).
  vm_compute in Hlt. discriminate Hlt.
Qed.

(** C9 for [pc_scores(Y43, 1, False)]. *)
Lemma C9_witness :
  pc_scores axis_svds Y43 1 (PyBool false) w0 = (Ok res43, snd scores43) /\
  exists U s0 Vh0 st s Vh,
    axis_svds (solver w0) Y43 1 = (Some (U, s0, Vh0), st) /\
    Permutation (rev (argsort s0)) (seq 0 (List.length s0)) /\
    take s0 (rev (argsort s0)) = Ok s /\
    descending s /\
    take_rows Vh0 (rev (argsort s0)) = Ok Vh /\
    rows Vh = map (fun i => nth i (rows Vh0) []) (rev (argsort s0)) /\
    matmul Y43 (transpose Vh) = Ok (mat_mul Y43 (transpose Vh)) /\
    (res43 = Scores (mat_mul Y43 (transpose Vh)) <-> PyBool false = PyNone) /\
    (res43 = ScoresAndEig (mat_mul Y43 (transpose Vh)) s <-> PyBool false <> PyNone) /\
    pc_scores axis_svds Y43 1 PyNone w0
    = (Ok (Scores (mat_mul Y43 (transpose Vh))), snd scores43) /\
    pc_scores axis_svds Y43 1 (PyBool false) w0
    = (Ok (ScoresAndEig (mat_mul Y43 (transpose Vh)) s), snd scores43) /\
    pc_scores axis_svds Y43 1 (PyInt 0) w0
    = (Ok (ScoresAndEig (mat_mul Y43 (transpose Vh)) s), snd scores43) /\
    forall v, v <> PyNone ->
              pc_scores axis_svds Y43 1 v w0
              = (Ok (ScoresAndEig (mat_mul Y43 (transpose Vh)) s), snd scores43).
Proof.
  split; [exact scores43_Ok|].
  exact (@C9_pc_scores_result nat axis_svds Y43 1%Z (PyBool false) w0 (snd scores43)
           res43 scores43_Ok).
Defined.

(** C10 for the kernel [(Z @ Z.T + 1) ** 2] of the 2-by-2 identity. *)
Lemma C10_witness :
  well_shaped Y22 = true /\
  exists K,
    poly_kernel Rpower Y22 1 2 = Ok K /\
    shape K = (nrows Y22, nrows Y22) /\
    transpose K = K.
Proof.
  split; [reflexivity|].
  exact (@C10_poly_kernel_symmetric Rpower Y22 1%R 2%R eq_refl).
Defined.

(** * More of the notebook *)

(** ** The split of the rows *)

Lemma slice_to_end (A : Type) (l : list A) (t : Z) :
  slice l t (Z.of_nat (List.length l)) = skipn (slice_index (List.length l) t) l.
Proof.
  unfold slice.
  rewrite (@slice_index_nonneg (List.length l) (Z.of_nat (List.length l))) by lia.
  rewrite Nat2Z.id, Nat.min_id. apply firstn_all2. rewrite length_skipn. lia.
Qed.

(** X1. Whatever [train] is, negative or beyond [n] included, [Y[:train,:]]
    and [Y[train:n,:]] cut the rows of [Y] in two consecutive blocks: no row
    is lost, repeated or reordered, and both halves keep the [p] columns. *)
Theorem split_is_partition (Y : ndarray) (train : Z) :
  let Ytrain := rows_upto Y train in
  let Ytest := rows_between Y train (Z.of_nat (nrows Y)) in
  rows Ytrain ++ rows Ytest = rows Y /\
  nrows Ytrain + nrows Ytest = nrows Y /\
  ncols Ytrain = ncols Y /\ ncols Ytest = ncols Y.
Proof.
  intros Ytrain Ytest.
  assert (E : rows Ytrain ++ rows Ytest = rows Y).
  { unfold Ytrain, Ytest, rows_upto, rows_between, nrows. simpl.
    rewrite slice_to_end. apply firstn_skipn. }
  split; [exact E|]. split; [|split; reflexivity].
  unfold nrows. now rewrite <- length_app, E.
Qed.

Lemma py_round_bounds (x : Q) : (Qfloor x <= py_round x <= Qfloor x + 1)%Z.
Proof.
  unfold py_round. destruct (Qcompare _ _); [destruct (Z.even _)| |]; lia.
Qed.

Lemma Qfloor_half (n : Z) : Qfloor (inject_Z n * (1 # 2)) = (n / 2)%Z.
Proof. unfold Qfloor, Qmult, inject_Z. simpl. now rewrite Z.mul_1_r. Qed.

Lemma train_default_small (n : nat) :
  n <= 101 -> (py_round (inject_Z (Z.of_nat n) * default_split) <= 50)%Z.
Proof.
  intros Hn.
  assert (H : forallb (fun n => (py_round (inject_Z (Z.of_nat n) * default_split) <=? 50)%Z)
                      (seq 0 102) = true) by (vm_compute; reflexivity).
  rewrite forallb_forall in H. apply Z.leb_le, H, in_seq. lia.
Qed.

Section MoreRuns.

Variable solver_state : Type.
Variable svds_solver :
  solver_state -> ndarray -> Z -> option (ndarray * list R * ndarray) * solver_state.
Variable emd2_solver :
  solver_state -> list R -> list R -> ndarray -> R * solver_state.

Abbreviation W' := (world solver_state).


(** X3. [split] is not validated: when [round(n * split)] is negative and the
    solver accepts [rmax] on [Y[:train,:]], the call does not raise.  It asks
    for the SVD, runs no round of the loop, calls the transport solver never
    and returns the empty list, on which [np.argmin] raises. *)
Theorem negative_train_returns_empty (Y : ndarray) (split : Q) (rmax : Z) (w : W') :
  svds_contract svds_solver ->
  let train := train_size Y split in
  (train < 0)%Z ->
  (1 <= rmax < min_shape (rows_upto Y train))%Z ->
  (exists st,
      wasserstein_dim_select svds_solver emd2_solver Y split rmax w
      = (Ok [], mkWorld st (trace w ++ [CallSvds (rows_upto Y train) rmax]))) /\
  forall ws w',
    wasserstein_dim_select svds_solver emd2_solver Y split rmax w = (Ok ws, w') ->
    selected_dimension ws = Raise ValueError.
Proof.
  intros Hc train Ht Hr.
  assert (E : exists st,
      wasserstein_dim_select svds_solver emd2_solver Y split rmax w
      = (Ok [], mkWorld st (trace w ++ [CallSvds (rows_upto Y train) rmax]))).
  { unfold wasserstein_dim_select. fold train. unfold bind at 1. unfold svds.
    specialize (Hc (solver w) (rows_upto Y train) rmax).
    destruct (svds_solver _ _ _) as [[[[U s] Vh]|] st]; simpl in Hc; [|lia].
    destruct Hc as (_ & Hs & Hk & _).
    cbv zeta. unfold bind, lift.
    destruct (take_argsort_total s) as [s' ->].
    destruct (@take_rows_argsort_total s Vh) as [Vh' ->]; [lia|].
    unfold py_range. replace (Z.to_nat (Z.min train rmax + 1 - 1)) with 0 by lia.
    simpl. unfold ret. now exists st. }
  split; [exact E|].
  intros ws w' H. destruct E as [st E]. rewrite E in H. now inversion H.
Qed.

(** X4. The solver is taken to reject a rank [k], with [ValueError],
    exactly when [k < 1] or [k >= min(A.shape)], and to answer every other
    rank with [k] singular values and a [k]-by-[p] array [Vh].  With the
    defaults [split = 0.5] and [rmax = 50], the call then raises [ValueError]
    exactly when [Y] has at most 101 rows or at most 50 columns, and returns
    a list of 50 distances exactly when [Y] has at least 102 rows and at
    least 51 columns. *)
Theorem default_arguments_need_102_by_51 (Y : ndarray) (w : W') :
  svds_contract svds_solver ->
  let result :=
    fst (wasserstein_dim_select svds_solver emd2_solver Y default_split default_rmax w) in
  (result = Raise ValueError <-> (nrows Y <= 101 \/ ncols Y <= 50)) /\
  ((exists ws, result = Ok ws /\ List.length ws = 50)
   <-> (102 <= nrows Y /\ 51 <= ncols Y)).
Proof.
  intros Hc result.
  pose proof (py_round_bounds (inject_Z (Z.of_nat (nrows Y)) * default_split)) as Hb.
  unfold default_split in Hb. rewrite Qfloor_half in Hb.
  fold default_split in Hb.
  change (py_round (inject_Z (Z.of_nat (nrows Y)) * default_split))
    with (train_size Y default_split) in Hb.
  set (train := train_size Y default_split) in *.
  assert (Ht0 : (0 <= train)%Z).
  { apply train_size_nonneg. reflexivity. }
  assert (Hsmall : nrows Y <= 101 \/ ncols Y <= 50 -> result = Raise ValueError).
  { intros H. apply svds_rejects; [exact Hc|]. fold train. right.
    unfold min_shape, default_rmax. rewrite nrows_rows_upto, slice_index_nonneg by lia.
    simpl ncols. destruct H as [H|H]; [|lia].
    pose proof (train_default_small H) as H'. fold (train_size Y default_split) in H'.
    fold train in H'. lia. }
  assert (Hlarge : 102 <= nrows Y /\ 51 <= ncols Y ->
                   exists ws, result = Ok ws /\ List.length ws = 50).
  { intros [Hn Hp].
    assert (Htr : (51 <= train < Z.of_nat (nrows Y))%Z).
    { split; [|]; pose proof (Z.div_mod (Z.of_nat (nrows Y)) 2);
        pose proof (Z.mod_pos_bound (Z.of_nat (nrows Y)) 2); lia. }
    destruct (@wasserstein_dim_select_total _ svds_solver emd2_solver
                Y default_split default_rmax w Hc) as (ws & w' & Hok).
    - fold train. lia.
    - fold train. unfold min_shape, default_rmax.
      rewrite nrows_rows_upto, slice_index_nonneg by lia. simpl ncols. lia.
    - exists ws. unfold result. rewrite Hok. split; [reflexivity|].
      apply wasserstein_dim_select_Ok in Hok
        as (U & s & Vh & st & s' & Vh' & _ & _ & _ & Hok).
      apply for_append_length in Hok. rewrite Hok, py_range_length.
      fold train. unfold default_rmax. lia. }
  assert (Hcases : (nrows Y <= 101 \/ ncols Y <= 50) \/ (102 <= nrows Y /\ 51 <= ncols Y))
    by lia.
  destruct Hcases as [H|H].
  - rewrite (Hsmall H). split.
    + split; [intros _; exact H|reflexivity].
    + split; [intros (ws & Hws & _); discriminate|lia].
  - destruct (Hlarge H) as (ws & -> & Hlen). split.
    + split; [discriminate|lia].
    + split; [intros _; exact H|intros _; now exists ws].
Qed.

End MoreRuns.

(** ** The calls of the transport solver *)

Lemma Rsum_repeat (x : R) (n : nat) : Rsum (repeat x n) = (INR n * x)%R.
Proof.
  induction n as [|n IH]; [simpl; lra|].
  rewrite S_INR. simpl repeat. unfold Rsum in *. simpl. rewrite IH. lra.
Qed.

Lemma uniform_weights_nonzero (n : nat) :
  n <> 0 -> uniform_weights n = Ok (repeat (1 / INR n)%R n).
Proof. intros H. unfold uniform_weights. now destruct (Nat.eqb_spec n 0). Qed.

Lemma uniform_weights_distribution (n : nat) (a : list R) :
  uniform_weights n = Ok a ->
  List.length a = n /\ Forall (fun x => (0 < x)%R) a /\ Rsum a = 1%R.
Proof.
  intros H. apply uniform_weights_Ok in H as [Hn ->].
  assert (Hpos : (0 < INR n)%R) by (apply lt_0_INR; lia).
  split; [apply repeat_length|]. split.
  - apply Forall_forall. intros x Hx. apply repeat_spec in Hx. subst x.
    apply Rdiv_lt_0_compat; lra.
  - rewrite Rsum_repeat. field. lra.
Qed.

Lemma ot_dist_shape (X1 X2 C : ndarray) :
  ot_dist X1 X2 = Ok C -> shape C = (nrows X1, nrows X2) /\ well_shaped C = true.
Proof.
  unfold ot_dist. destruct (Nat.eqb _ _); [|discriminate].
  intros H. inversion H; subst. unfold shape, well_shaped, nrows. simpl.
  rewrite length_map. split; [reflexivity|].
  apply forallb_forall. intros row Hrow. apply in_map_iff in Hrow as (x & <- & _).
  rewrite length_map. apply Nat.eqb_refl.
Qed.

Section MoreLoops.

Variable solver_state : Type.
Variable svds_solver :
  solver_state -> ndarray -> Z -> option (ndarray * list R * ndarray) * solver_state.
Variable emd2_solver :
  solver_state -> list R -> list R -> ndarray -> R * solver_state.

Lemma loop_transport_calls (Ytrain Ytest Vh : ndarray) (xs : list Z) :
  forall (w w' : world solver_state) (ws : list R),
    for_append xs (wasserstein_at emd2_solver Ytrain Ytest Vh) w = (Ok ws, w') ->
    exists evs,
      trace w' = trace w ++ evs /\
      List.length evs = List.length xs /\
      Forall (transport_call (nrows Ytrain) (nrows Ytest)) evs.
Proof.
  induction xs as [|x xs IH]; simpl; intros w w' ws H.
  - apply ret_Ok in H as [_ ->]. exists []. rewrite app_nil_r. auto.
  - apply bind_Ok in H as (d & w1 & Hd & H).
    apply bind_Ok in H as (ds & w2 & Hds & H).
    apply ret_Ok in H as [_ ->].
    apply wasserstein_at_Ok in Hd as (P & Yproj & C & HP & HY & HC & Hn1 & Hn2 & _ & Hw1).
    apply IH in Hds as (evs & Htr & Hlen & HF).
    assert (EY : nrows Yproj = nrows Ytrain).
    { unfold matmul in HY. destruct (Nat.eqb _ _); [|discriminate].
      inversion HY. apply nrows_mat_mul. }
    eexists (_ :: evs). split; [|split].
    + rewrite Htr, Hw1. simpl. rewrite <- app_assoc. reflexivity.
    + simpl. now rewrite Hlen.
    + constructor; [|exact HF].
      destruct (@uniform_weights_distribution _ _ (@uniform_weights_nonzero _ Hn1))
        as (La & Pa & Sa).
      destruct (@uniform_weights_distribution _ _ (@uniform_weights_nonzero _ Hn2))
        as (Lb & Pb & Sb).
      apply ot_dist_shape in HC as HS. destruct HS as [HS HW].
      apply ot_dist_nonneg in HC.
      exists (repeat (1 / INR (nrows Yproj))%R (nrows Yproj)),
             (repeat (1 / INR (nrows Ytest))%R (nrows Ytest)), C.
      rewrite <- EY. repeat split; assumption.
Qed.

(** X5. When the call returns, it has asked the transport solver once for
    each returned distance, after the SVD, and every one of these calls is
    well formed: the two weight vectors have the sizes of the training and of
    the test half, positive entries that sum to 1, and the cost array has the
    matching shape and nonnegative entries. *)
Theorem transport_calls_well_formed (Y : ndarray) (split : Q) (rmax : Z)
        (w w' : world solver_state) (ws : list R) :
  wasserstein_dim_select svds_solver emd2_solver Y split rmax w = (Ok ws, w') ->
  let train := train_size Y split in
  let Ytrain := rows_upto Y train in
  let Ytest := rows_between Y train (Z.of_nat (nrows Y)) in
  exists evs,
    trace w' = trace w ++ CallSvds Ytrain rmax :: evs /\
    List.length evs = List.length ws /\
    Forall (transport_call (nrows Ytrain) (nrows Ytest)) evs.
Proof.
  intros H train Ytrain Ytest.
  apply wasserstein_dim_select_Ok in H as (U & s & Vh & st & s' & Vh' & _ & _ & _ & H).
  pose proof (for_append_length _ _ _ H) as Hlen.
  apply loop_transport_calls in H as (evs & Htr & Hl & HF). simpl in Htr.
  exists evs. split; [now rewrite Htr, <- app_assoc|]. split; [congruence|exact HF].
Qed.

End MoreLoops.

(** ** [pc_scores]: errors, shapes and the singular values *)

Lemma well_shaped_mat_mul (A B : ndarray) : well_shaped (mat_mul A B) = true.
Proof.
  unfold well_shaped. apply forallb_forall. intros row Hrow.
  unfold mat_mul, transpose in Hrow. simpl in Hrow.
  apply in_map_iff in Hrow as (a & <- & _).
  rewrite !length_map, length_seq. apply Nat.eqb_refl.
Qed.

(** Reading a list along a permutation of its positions permutes it. *)
Lemma take_permutation (A : Type) (l xs : list A) (idx : list nat) :
  Permutation idx (seq 0 (List.length l)) -> take l idx = Ok xs -> Permutation xs l.
Proof.
  intros Hp H. destruct l as [|d l].
  - simpl in Hp. apply Permutation_sym, Permutation_nil in Hp. subst idx. simpl in H.
    inversion H. constructor.
  - apply (take_Ok d) in H as [-> _].
    etransitivity; [apply Permutation_map, Hp|].
    now rewrite <- (list_as_map_seq d (d :: l)).
Qed.

Section MoreScores.

Variable solver_state : Type.
Variable svds_solver :
  solver_state -> ndarray -> Z -> option (ndarray * list R * ndarray) * solver_state.

(** X6. With a solver that obeys its rank contract, [pc_scores(X, r)] raises
    exactly when [r < 1] or [r >= min(X.shape)], and the exception is the
    solver's [ValueError].  Otherwise it returns scores [Y] with one row for
    each row of [X] and [r] columns, and its singular values are the [r]
    values the solver answered, none lost or repeated, in descending order. *)
Theorem pc_scores_errors_and_shapes (X : ndarray) (r : Z) (return_eig : pyobj)
        (w : world solver_state) :
  svds_contract svds_solver ->
  match fst (pc_scores svds_solver X r return_eig w) with
  | Raise e => e = ValueError /\ (r < 1 \/ min_shape X <= r)%Z
  | Ok res =>
      (1 <= r < min_shape X)%Z /\
      exists Y s,
        res = (if is_not_None return_eig then ScoresAndEig Y s else Scores Y) /\
        shape Y = (nrows X, Z.to_nat r) /\
        well_shaped Y = true /\
        List.length s = Z.to_nat r /\
        descending s /\
        exists U s0 Vh0,
          fst (svds_solver (solver w) X r) = Some (U, s0, Vh0) /\ Permutation s s0
  end.
Proof.
  intros Hc. unfold pc_scores, bind at 1, svds.
  specialize (Hc (solver w) X r).
  destruct (svds_solver (solver w) X r) as [[[[U s0] Vh0]|] st] eqn:E; simpl in Hc;
    [|simpl; auto].
  destruct Hc as (Hr & Hs & Hk & Hp & _).
  cbv zeta. unfold bind, lift.
  destruct (take_argsort_total s0) as [s Hts]. rewrite Hts.
  destruct (@take_rows_argsort_total s0 Vh0) as [Vh HV]; [lia|]. rewrite HV.
  apply take_rows_shape in HV as (HV1 & HV2 & _).
  unfold matmul. rewrite nrows_transpose, HV1, Hp, Nat.eqb_refl.
  assert (Hlen : List.length s = Z.to_nat r).
  { apply take_length in Hts. rewrite Hts, length_rev.
    rewrite (Permutation_length (argsort_perm s0)), length_seq. exact Hs. }
  assert (HY : shape (mat_mul X (transpose Vh)) = (nrows X, Z.to_nat r)).
  { unfold shape. rewrite nrows_mat_mul. simpl ncols. rewrite HV2, length_rev.
    now rewrite (Permutation_length (argsort_perm s0)), length_seq, Hs. }
  assert (Hres : exists Y s',
    (if is_not_None return_eig
     then ScoresAndEig (mat_mul X (transpose Vh)) s
     else Scores (mat_mul X (transpose Vh)))
    = (if is_not_None return_eig then ScoresAndEig Y s' else Scores Y) /\
    shape Y = (nrows X, Z.to_nat r) /\
    well_shaped Y = true /\
    List.length s' = Z.to_nat r /\
    descending s' /\
    exists U' s0' Vh0', Some (U, s0, Vh0) = Some (U', s0', Vh0') /\ Permutation s' s0').
  { exists (mat_mul X (transpose Vh)), s. split; [reflexivity|].
    split; [exact HY|]. split; [apply well_shaped_mat_mul|].
    split; [exact Hlen|]. split; [now apply take_argsort_descending with (s := s0)|].
    exists U, s0, Vh0. split; [reflexivity|].
    apply take_permutation with (idx := rev (argsort s0)); [|exact Hts].
    apply argsort_rev_perm. }
  destruct (is_not_None return_eig); simpl; split; try exact Hr; exact Hres.
Qed.

End MoreScores.

(** ** The selected dimension *)

Lemma skipn_cons_nth (A : Type) (d x : A) (l l' : list A) (i : nat) :
  skipn i l = x :: l' -> nth i l d = x /\ skipn (S i) l = l' /\ i < List.length l.
Proof.
  revert l. induction i as [|i IH]; intros [|y l] H; simpl in *; try discriminate.
  - inversion H. repeat split. lia.
  - destruct (IH l H) as (H1 & H2 & H3). repeat split; auto. lia.
Qed.

Lemma argmin_from_spec (ws : list R) :
  forall (l : list R) (i best : nat),
    l = skipn i ws -> i <= List.length ws -> best < i ->
    (forall m, m < i -> (nth best ws 0 <= nth m ws 0)%R) ->
    (forall m, m < best -> (nth best ws 0 < nth m ws 0)%R) ->
    let j := argmin_from best (nth best ws 0%R) i l in
    j < List.length ws /\
    (forall m, m < List.length ws -> (nth j ws 0 <= nth m ws 0)%R) /\
    (forall m, m < j -> (nth j ws 0 < nth m ws 0)%R).
Proof.
  induction l as [|x l IH]; intros i best Hl Hi Hb Hle Hlt; simpl.
  - assert (List.length ws <= i).
    { pose proof (length_skipn i ws) as E. rewrite <- Hl in E. simpl in E. lia. }
    repeat split; [lia| |exact Hlt]. intros m Hm. apply Hle. lia.
  - symmetry in Hl. apply (skipn_cons_nth 0%R) in Hl as (Hx & Hl & Hi').
    destruct (Rlt_dec x (nth best ws 0%R)) as [Hxl|Hxl].
    + rewrite <- Hx. apply IH; [now symmetry|lia|lia| |].
      * intros m Hm. destruct (Nat.eq_dec m i) as [->|Hne]; [lra|].
        specialize (Hle m ltac:(lia)). lra.
      * intros m Hm. specialize (Hle m Hm). lra.
    + apply IH; [now symmetry|lia|lia| |exact Hlt].
      intros m Hm. destruct (Nat.eq_dec m i) as [->|Hne]; [lra|].
      apply Hle. lia.
Qed.

Section Selection.

Variable solver_state : Type.
Variable svds_solver :
  solver_state -> ndarray -> Z -> option (ndarray * list R * ndarray) * solver_state.
Variable emd2_solver :
  solver_state -> list R -> list R -> ndarray -> R * solver_state.

(** X7. When the call returns on valid data, [np.argmin(ws) + 1] is defined
    and is a rank between 1 and [rmax]; its distance is the least of the
    list, and it is the first rank with this distance. *)
Theorem selected_dimension_is_first_least (Y : ndarray) (split : Q) (rmax : Z)
        (w w' : world solver_state) (ws : list R) :
  svds_contract svds_solver ->
  valid_data Y split ->
  wasserstein_dim_select svds_solver emd2_solver Y split rmax w = (Ok ws, w') ->
  exists rhat,
    selected_dimension ws = Ok rhat /\
    (1 <= Z.of_nat rhat <= rmax)%Z /\
    (forall r, 1 <= r <= List.length ws ->
               (nth (rhat - 1) ws 0 <= nth (r - 1) ws 0)%R) /\
    (forall r, 1 <= r < rhat -> (nth (rhat - 1) ws 0 < nth (r - 1) ws 0)%R).
Proof.
  intros Hc (Hn & Hp & Hs0 & Hs1) H.
  assert (Hlen : Z.of_nat (List.length ws) = rmax /\ (1 <= rmax)%Z).
  { pose proof (train_size_nonneg Y Hs0) as Ht0.
    apply wasserstein_dim_select_Ok in H
      as (U & s & Vh & st & s' & Vh' & Hsvd & _ & _ & H).
    specialize (Hc (solver w) (rows_upto Y (train_size Y split)) rmax).
    rewrite Hsvd in Hc. destruct Hc as (Hr & _).
    unfold min_shape in Hr. rewrite nrows_rows_upto in Hr.
    rewrite slice_index_nonneg in Hr by lia.
    apply for_append_length in H. rewrite H, py_range_length. lia. }
  destruct Hlen as [Hlen Hr].
  destruct ws as [|x ws']; [simpl in Hlen; lia|].
  destruct (@argmin_from_spec (x :: ws') ws' 1 0 eq_refl) as (Hj & Hle & Hlt);
    try (simpl; lia).
  { intros m Hm. replace m with 0 by lia. lra. }
  simpl nth in Hj, Hle, Hlt.
  set (j := argmin_from 0 x 1 ws') in *.
  exists (j + 1). unfold selected_dimension, np_argmin. fold j.
  split; [reflexivity|]. split; [lia|].
  replace (j + 1 - 1) with j by lia. split.
  - intros r Hr'. apply Hle. lia.
  - intros r Hr'. apply Hlt. lia.
Qed.

End Selection.

(** ** [make_circle] *)

Lemma nth_map_inside (A : Type) (f : A -> R) (l : list A) (j : nat) (d : A) :
  j < List.length l -> nth j (map f l) 0%R = f (nth j l d).
Proof.
  intros Hj. rewrite (nth_indep _ 0%R (f d)) by now rewrite length_map.
  apply map_nth.
Qed.

Section Circles.

Variable rng_state : Type.
Variable uniform : rng_state -> R -> R -> Z -> option (list R) * rng_state.

(** X8. For a sampler that answers a size [n] only when [n >= 0], and then
    with [n] numbers, and that raises [ValueError] otherwise:
    [make_circle(n, x, y, r)] raises [ValueError] when [n] is negative; it
    raises only when the sampler rejects the size, with the sampler's
    [ValueError]; and whenever the sampler answers it returns an [n]-by-2
    array, also for [n = 0], whose every row is a point of the circle of
    centre [(x, y)] and radius [|r|]. *)
Theorem make_circle_points_on_circle (n : Z) (x y r : R) (g : rng_state) :
  uniform_contract uniform ->
  ((n < 0)%Z -> fst (make_circle uniform n x y r g) = Raise ValueError) /\
  match fst (make_circle uniform n x y r g) with
  | Raise e => e = ValueError /\ fst (uniform g 0%R (2 * PI)%R n) = None
  | Ok A =>
      (exists s, fst (uniform g 0%R (2 * PI)%R n) = Some s) /\
      (0 <= n)%Z /\
      shape A = (Z.to_nat n, 2) /\
      well_shaped A = true /\
      Forall (on_circle x y r) (rows A)
  end.
Proof.
  intros Hc. unfold make_circle. specialize (Hc g 0%R (2 * PI)%R n).
  destruct (uniform g 0%R (2 * PI)%R n) as [[s|] g']; simpl in Hc; simpl fst;
    [|split; [reflexivity|split; reflexivity]].
  destruct Hc as [Hn Hlen].
  unfold vstack1d. rewrite !length_map, Nat.eqb_refl.
  split; [intros Hneg; lia|].
  split; [now exists s|].
  split; [exact Hn|].
  unfold transpose, shape, nrows, well_shaped. simpl.
  rewrite !length_map, length_seq, Hlen.
  split; [reflexivity|]. split.
  - apply forallb_forall. intros row Hrow. apply in_map_iff in Hrow as (j & <- & _).
    reflexivity.
  - apply Forall_forall. intros row Hrow. apply in_map_iff in Hrow as (j & <- & Hj).
    apply in_seq in Hj. unfold column. simpl.
    exists (nth j (map (fun t => (r * cos t + x)%R) s) 0%R),
           (nth j (map (fun t => (r * sin t + y)%R) s) 0%R).
    split; [reflexivity|].
    rewrite !(@nth_map_inside _ _ s j 0%R) by lia.
    pose proof (sin2_cos2 (nth j s 0%R)) as Hsc. unfold Rsqr in Hsc.
    set (c := cos _) in *. set (sn := sin _) in *. nra.
Qed.

End Circles.

(** ** More on the projection *)

Lemma sum_n_Sr (f : nat -> R) (n : nat) : sum_n f (S n) = (sum_n f n + f n)%R.
Proof.
  unfold sum_n. rewrite seq_S, map_app. simpl.
  induction (map f (seq 0 n)) as [|x l IH]; simpl; [lra|].
  unfold Rsum in *. rewrite IH. lra.
Qed.

Lemma sum_n_one (n : nat) : sum_n (fun _ => 1%R) n = INR n.
Proof.
  induction n as [|n IH]; [reflexivity|]. rewrite sum_n_Sr, IH, S_INR. lra.
Qed.

(** A sum restricted to the indices below [m]. *)
Lemma sum_n_restrict (g : nat -> R) (n m : nat) :
  sum_n (fun a => if Nat.ltb a m then g a else 0%R) n = sum_n g (Nat.min n m).
Proof.
  induction n as [|n IH]; [reflexivity|].
  rewrite sum_n_Sr, IH. destruct (Nat.ltb_spec n m) as [H|H].
  - replace (Nat.min (S n) m) with (S (Nat.min n m)) by lia.
    rewrite sum_n_Sr. now replace (Nat.min n m) with n by lia.
  - replace (Nat.min (S n) m) with (Nat.min n m) by lia. lra.
Qed.

Lemma sum_n_delta_any (f : nat -> R) (a n : nat) :
  sum_n (fun b => ((if Nat.eqb a b then 1 else 0) * f b)%R) n
  = if Nat.ltb a n then f a else 0%R.
Proof.
  destruct (Nat.ltb_spec a n) as [H|H]; [now apply sum_n_delta|].
  rewrite (@sum_n_ext _ (fun _ => 0%R)); [apply sum_n_zero|].
  intros b Hb. destruct (Nat.eqb_spec a b); [lia|lra].
Qed.

(** The product of the projections of two ranks, entry by entry. *)
Lemma projection_sum_two (k p ra rb : nat) (v : nat -> nat -> R) (i j : nat) :
  orthonormal_rows (build k p v) -> ra <= k -> rb <= k ->
  sum_n (fun c => (sum_n (fun a => v a i * v a c) ra *
                   sum_n (fun b => v b c * v b j) rb)%R) p =
  sum_n (fun a => (v a i * v a j)%R) (Nat.min ra rb).
Proof.
  intros Ho Ha Hb.
  transitivity
    (sum_n (fun c => sum_n (fun a => sum_n (fun b =>
       (v a i * v b j * (v a c * v b c))%R) rb) ra) p).
  { apply sum_n_ext. intros c _. rewrite sum_n_scal_r.
    apply sum_n_ext. intros a _. rewrite sum_n_scal_l.
    apply sum_n_ext. intros b _. ring. }
  rewrite sum_n_swap. rewrite <- sum_n_restrict. apply sum_n_ext. intros a Ha'.
  rewrite sum_n_swap.
  transitivity
    (sum_n (fun b => ((if Nat.eqb a b then 1 else 0) * (v a i * v b j))%R) rb).
  { apply sum_n_ext. intros b Hb'. rewrite <- sum_n_scal_l.
    rewrite (@orthonormal_build k p v a b Ho) by lia. ring. }
  apply (sum_n_delta_any (fun b => (v a i * v b j)%R)).
Qed.

Lemma mat_mul_build_assoc (m n q t : nat) (f g h : nat -> nat -> R) :
  mat_mul (mat_mul (build m n f) (build n q g)) (build q t h) =
  mat_mul (build m n f) (mat_mul (build n q g) (build q t h)).
Proof.
  rewrite !mat_mul_build. apply build_ext. intros i j _ _.
  transitivity (sum_n (fun k => sum_n (fun l => (f i l * g l k * h k j)%R) n) q).
  { apply sum_n_ext. intros k _. apply sum_n_scal_r. }
  rewrite sum_n_swap. apply sum_n_ext. intros l _.
  rewrite sum_n_scal_l. apply sum_n_ext. intros k _. ring.
Qed.

(** [(A @ B) @ C = A @ (B @ C)] for arrays whose shapes agree. *)
Lemma mat_mul_assoc (A B C : ndarray) :
  well_shaped A = true -> well_shaped B = true -> well_shaped C = true ->
  ncols A = nrows B -> ncols B = nrows C ->
  mat_mul (mat_mul A B) C = mat_mul A (mat_mul B C).
Proof.
  intros HA HB HC E1 E2.
  destruct (as_build A HA) as [f EA]. destruct (as_build B HB) as [g EB].
  destruct (as_build C HC) as [h EC].
  rewrite EA, EB, EC, E1, E2. apply mat_mul_build_assoc.
Qed.

(** The projection of rank [r], its shape and its two laws, for the proofs
    below. *)
Lemma projection_laws (Vh : ndarray) (r : Z) :
  well_shaped Vh = true -> orthonormal_rows Vh ->
  let P := mat_mul (cols_upto (transpose Vh) r) (rows_upto Vh r) in
  projection Vh r = Ok P /\
  nrows P = ncols Vh /\ ncols P = ncols Vh /\ well_shaped P = true /\
  transpose P = P /\ mat_mul P P = P.
Proof.
  intros Hw Ho P. split; [apply projection_Ok|].
  destruct (projection_shape Vh r (projection_Ok Vh r)) as [H1 H2].
  split; [exact H1|]. split; [exact H2|]. split; [apply well_shaped_mat_mul|].
  destruct (as_build Vh Hw) as [v E].
  set (k := nrows Vh) in *. set (p := ncols Vh) in *. clearbody k p.
  subst Vh P. rewrite projection_build. split.
  - rewrite transpose_build. apply build_ext. intros i j _ _.
    apply sum_n_ext. intros a _. ring.
  - rewrite mat_mul_build. apply build_ext. intros i j _ _.
    rewrite (@projection_sum_two k p _ _ v i j Ho) by apply slice_index_le.
    now rewrite Nat.min_id.
Qed.

(** X9. Projecting twice is projecting once: for [Vh] with orthonormal rows
    and [Yproj = Ytrain @ P.T], [Yproj @ P.T] is [Yproj] again. *)
Theorem projected_points_are_fixed (Vh Ytrain : ndarray) (r : Z) :
  well_shaped Vh = true ->
  orthonormal_rows Vh ->
  well_shaped Ytrain = true ->
  ncols Ytrain = ncols Vh ->
  exists P Yproj,
    projection Vh r = Ok P /\
    matmul Ytrain (transpose P) = Ok Yproj /\
    matmul Yproj (transpose P) = Ok Yproj.
Proof.
  intros Hw Ho HY Hp.
  destruct (projection_laws r Hw Ho) as (HP & Hn & Hc & HwP & HT & HI).
  set (P := mat_mul _ _) in *.
  exists P, (mat_mul Ytrain P). split; [exact HP|].
  rewrite HT. unfold matmul. rewrite Hn, Hp, Nat.eqb_refl.
  split; [reflexivity|].
  change (ncols (mat_mul Ytrain P)) with (ncols P). rewrite Hc, Nat.eqb_refl. f_equal.
  rewrite mat_mul_assoc; auto; congruence.
Qed.

(** X10. The projections are nested: for ranks [0 <= r1 <= r2] and [Vh] with
    orthonormal rows, [P(r1) @ P(r2)] and [P(r2) @ P(r1)] are both [P(r1)]. *)
Theorem projections_are_nested (Vh : ndarray) (r1 r2 : Z) :
  well_shaped Vh = true ->
  orthonormal_rows Vh ->
  (0 <= r1 <= r2)%Z ->
  exists P1 P2,
    projection Vh r1 = Ok P1 /\
    projection Vh r2 = Ok P2 /\
    matmul P1 P2 = Ok P1 /\
    matmul P2 P1 = Ok P1.
Proof.
  intros Hw Ho Hr. rewrite !projection_Ok.
  destruct (as_build Vh Hw) as [v E].
  set (k := nrows Vh) in *. set (p := ncols Vh) in *. clearbody k p.
  subst Vh. rewrite !projection_build.
  do 2 eexists. split; [reflexivity|]. split; [reflexivity|].
  assert (Hle : slice_index k r1 <= slice_index k r2).
  { rewrite !slice_index_nonneg by lia. lia. }
  unfold matmul. rewrite !nrows_build. simpl ncols. rewrite Nat.eqb_refl.
  rewrite !mat_mul_build. split; f_equal; apply build_ext; intros i j _ _.
  - rewrite (@projection_sum_two k p _ _ v i j Ho) by apply slice_index_le.
    now rewrite Nat.min_l.
  - rewrite (@projection_sum_two k p _ _ v i j Ho) by apply slice_index_le.
    now rewrite Nat.min_r.
Qed.

(** X11. [P(r)] keeps the first [r] right singular vectors and sends the
    others to zero: the first [r] rows of [Vh @ P] are those of [Vh], and the
    rows below are zero. *)
Theorem projection_keeps_leading_vectors (Vh : ndarray) (r : Z) :
  well_shaped Vh = true ->
  orthonormal_rows Vh ->
  exists P VP,
    projection Vh r = Ok P /\
    matmul Vh P = Ok VP /\
    shape VP = shape Vh /\
    rows_upto VP r = rows_upto Vh r /\
    forall a j, slice_index (nrows Vh) r <= a < nrows Vh -> j < ncols Vh ->
                entry VP a j = 0%R.
Proof.
  intros Hw Ho. rewrite projection_Ok.
  destruct (as_build Vh Hw) as [v E].
  set (k := nrows Vh) in *. set (p := ncols Vh) in *. clearbody k p.
  subst Vh. rewrite projection_build.
  assert (HVP : mat_mul (build k p v)
                  (build p p (fun i j => sum_n (fun a => (v a i * v a j)%R)
                                               (slice_index k r)))
                = build k p (fun a j => if Nat.ltb a (slice_index k r)
                                        then v a j else 0%R)).
  { rewrite mat_mul_build. apply build_ext. intros a j Ha _.
    transitivity
      (sum_n (fun b => ((if Nat.eqb a b then 1 else 0) * v b j)%R) (slice_index k r)).
    - transitivity
        (sum_n (fun c => sum_n (fun b => (v b j * (v a c * v b c))%R)
                               (slice_index k r)) p).
      { apply sum_n_ext. intros c _. rewrite sum_n_scal_l.
        apply sum_n_ext. intros b _. ring. }
      rewrite sum_n_swap. apply sum_n_ext. intros b Hb.
      rewrite <- sum_n_scal_l.
      pose proof (slice_index_le k r).
      rewrite (@orthonormal_build k p v a b Ho) by lia. ring.
    - apply (sum_n_delta_any (fun b => v b j)). }
  do 2 eexists. split; [reflexivity|].
  unfold matmul. simpl ncols. rewrite nrows_build, Nat.eqb_refl.
  split; [reflexivity|]. rewrite HVP.
  split; [unfold shape; now rewrite !nrows_build|].
  split.
  - rewrite !rows_upto_build. apply build_ext. intros a j Ha _.
    destruct (Nat.ltb_spec a (slice_index k r)); [reflexivity|lia].
  - intros a j Ha Hj. rewrite entry_build by lia.
    destruct (Nat.ltb_spec a (slice_index k r)); [lia|reflexivity].
Qed.

(** X12. The diagonal of [P(r)] sums to the number of right singular vectors
    it is built from: [r] itself when [0 <= r <= k]. *)
Theorem projection_diagonal_sum (Vh : ndarray) (r : Z) :
  well_shaped Vh = true ->
  orthonormal_rows Vh ->
  exists P,
    projection Vh r = Ok P /\
    diagonal_sum P = INR (slice_index (nrows Vh) r) /\
    ((0 <= r <= Z.of_nat (nrows Vh))%Z -> diagonal_sum P = IZR r).
Proof.
  intros Hw Ho. rewrite projection_Ok.
  destruct (as_build Vh Hw) as [v E].
  set (k := nrows Vh) in *. set (p := ncols Vh) in *. clearbody k p.
  subst Vh. rewrite projection_build.
  eexists. split; [reflexivity|].
  assert (Hd : diagonal_sum
                 (build p p (fun i j => sum_n (fun a => (v a i * v a j)%R)
                                              (slice_index k r)))
               = INR (slice_index k r)).
  { unfold diagonal_sum. rewrite nrows_build. simpl ncols. rewrite Nat.min_id.
    transitivity (sum_n (fun i => sum_n (fun a => (v a i * v a i)%R) (slice_index k r)) p).
    { apply sum_n_ext. intros i Hi. now rewrite entry_build. }
    rewrite sum_n_swap. rewrite <- sum_n_one. apply sum_n_ext. intros a Ha.
    pose proof (slice_index_le k r).
    rewrite (@orthonormal_build k p v a a Ho) by lia. now rewrite Nat.eqb_refl. }
  split; [exact Hd|]. intros Hr. rewrite Hd.
  rewrite slice_index_nonneg by lia. rewrite Nat.min_l by lia.
  rewrite INR_IZR_INZ. f_equal. lia.
Qed.

(** ** The order of the triplets the solver answers *)

Lemma sorted_pairs_unique (B : Type) (l1 l2 : list (R * B)) :
  StronglySorted (fun p q => (fst p > fst q)%R) l1 ->
  StronglySorted (fun p q => (fst p > fst q)%R) l2 ->
  Permutation l1 l2 -> l1 = l2.
Proof.
  revert l2. induction l1 as [|a l1 IH]; intros l2 H1 H2 Hp.
  - now apply Permutation_nil in Hp.
  - destruct l2 as [|b l2];
      [apply Permutation_sym, Permutation_nil in Hp; discriminate|].
    inversion H1 as [|? ? H1' Ha]; inversion H2 as [|? ? H2' Hb]; subst.
    assert (E : a = b).
    { assert (Ia : In a (b :: l2)) by (apply (Permutation_in _ Hp); now left).
      assert (Ib : In b (a :: l1))
        by (apply (Permutation_in _ (Permutation_sym Hp)); now left).
      destruct Ia as [->|Ia]; [reflexivity|]. destruct Ib as [->|Ib]; [reflexivity|].
      rewrite Forall_forall in Ha, Hb. specialize (Ha b Ib). specialize (Hb a Ia). lra. }
    subst b. f_equal. apply IH; auto. now apply Permutation_cons_inv with (a := a).
Qed.

Lemma descending_strict (l : list R) : descending l -> NoDup l -> StronglySorted Rgt l.
Proof.
  unfold descending. induction 1 as [|a l Hl IH Ha]; intros Hnd; constructor;
    inversion Hnd as [|? ? Hnin Hnd']; subst; [now apply IH|].
  rewrite Forall_forall in *. intros y Hy. specialize (Ha y Hy).
  destruct (Req_dec_T a y) as [->|Hne]; [contradiction|lra].
Qed.

Lemma StronglySorted_unmap (A B : Type) (f : A -> B) (P : B -> B -> Prop) (l : list A) :
  StronglySorted P (map f l) -> StronglySorted (fun x y => P (f x) (f y)) l.
Proof.
  induction l as [|a l IH]; simpl; intros H; [constructor|].
  inversion H as [|? ? Hl Ha]; subst. constructor; [now apply IH|].
  rewrite Forall_forall in *. intros x Hx. apply Ha. now apply in_map.
Qed.

Lemma combine_map_same (A B C : Type) (f : A -> B) (g : A -> C) (l : list A) :
  combine (map f l) (map g l) = map (fun x => (f x, g x)) l.
Proof. induction l as [|a l IH]; simpl; [reflexivity|]. now rewrite IH. Qed.

Lemma map_fst_combine (A B : Type) (a : list A) (b : list B) :
  List.length a = List.length b -> map fst (combine a b) = a.
Proof.
  revert b. induction a as [|x a IH]; intros [|y b] H; simpl in *; try reflexivity;
    try discriminate. f_equal. apply IH. lia.
Qed.

(** The re-sort of two answers that hold the same triplets, with distinct
    singular values, gives the same values and the same [Vh]. *)
Lemma resort_unique (s1 s2 s1' s2' : list R) (V1 V2 V1' V2' : ndarray) :
  List.length s1 = nrows V1 -> List.length s2 = nrows V2 -> ncols V1 = ncols V2 ->
  NoDup s1 ->
  Permutation (combine s1 (rows V1)) (combine s2 (rows V2)) ->
  take s1 (rev (argsort s1)) = Ok s1' -> take_rows V1 (rev (argsort s1)) = Ok V1' ->
  take s2 (rev (argsort s2)) = Ok s2' -> take_rows V2 (rev (argsort s2)) = Ok V2' ->
  s1' = s2' /\ V1' = V2'.
Proof.
  intros L1 L2 Hc Hnd Hp T1 R1 T2 R2.
  assert (Hs12 : Permutation s1 s2).
  { apply (Permutation_map fst) in Hp. now rewrite !map_fst_combine in Hp. }
  assert (Hsorted : forall s s' V V',
    List.length s = nrows V -> NoDup s ->
    take s (rev (argsort s)) = Ok s' -> take_rows V (rev (argsort s)) = Ok V' ->
    let L := map (fun j => nth j (combine s (rows V)) (0%R, [])) (rev (argsort s)) in
    s' = map fst L /\ rows V' = map snd L /\ ncols V' = ncols V /\
    Permutation L (combine s (rows V)) /\
    StronglySorted (fun p q => (fst p > fst q)%R) L).
  { intros s s' V V' HL Hn HT HR L.
    pose proof (@take_argsort_descending s s' HT) as Hd.
    pose proof (@take_permutation _ s s' _ (argsort_rev_perm s) HT) as Hps.
    apply (take_Ok 0%R) in HT as [Es _].
    apply take_rows_shape in HR as (Ec & _ & Er).
    assert (EL : L = combine s' (rows V')).
    { rewrite Es, Er, combine_map_same. unfold L. apply map_ext. intros j.
      apply combine_nth. exact HL. }
    assert (E1 : s' = map fst L).
    { rewrite EL, map_fst_combine; [reflexivity|].
      rewrite Es, Er. now rewrite !length_map. }
    split; [exact E1|]. split.
    - unfold L. rewrite map_map, Er. apply map_ext. intros j.
      now rewrite combine_nth.
    - split; [exact Ec|]. split.
      + unfold L.
        etransitivity;
          [apply Permutation_map with (l' := seq 0 (List.length (combine s (rows V))))|].
        * rewrite length_combine. change (List.length (rows V)) with (nrows V).
          rewrite <- HL, Nat.min_id. apply argsort_rev_perm.
        * now rewrite <- (list_as_map_seq (0%R, []) (combine s (rows V))).
      + apply StronglySorted_unmap with (f := fst) (P := Rgt). rewrite <- E1.
        apply descending_strict; [exact Hd|].
        apply (Permutation_NoDup (Permutation_sym Hps) Hn). }
  destruct (Hsorted s1 s1' V1 V1' L1 Hnd T1 R1) as (E1 & F1 & C1 & P1 & S1).
  destruct (Hsorted s2 s2' V2 V2' L2 (Permutation_NoDup Hs12 Hnd) T2 R2)
    as (E2 & F2 & C2 & P2 & S2).
  assert (EL : map (fun j => nth j (combine s1 (rows V1)) (0%R, [])) (rev (argsort s1))
               = map (fun j => nth j (combine s2 (rows V2)) (0%R, [])) (rev (argsort s2))).
  { apply sorted_pairs_unique; [exact S1|exact S2|].
    rewrite P1, Hp. now symmetry. }
  split; [now rewrite E1, E2, EL|].
  destruct V1' as [c1 r1], V2' as [c2 r2]. simpl in *. f_equal; congruence.
Qed.

Section TripletOrder.

Variable solver_state : Type.
Variable svds_solver :
  solver_state -> ndarray -> Z -> option (ndarray * list R * ndarray) * solver_state.
Variable emd2_solver :
  solver_state -> list R -> list R -> ndarray -> R * solver_state.

Lemma pc_scores_after_sort (X : ndarray) (r : Z) (return_eig : pyobj)
      (w : world solver_state) (U : ndarray) (s s' : list R) (V V' : ndarray) :
  fst (svds_solver (solver w) X r) = Some (U, s, V) ->
  take s (rev (argsort s)) = Ok s' ->
  take_rows V (rev (argsort s)) = Ok V' ->
  fst (pc_scores svds_solver X r return_eig w)
  = match matmul X (transpose V') with
    | Ok Y => Ok (if is_not_None return_eig then ScoresAndEig Y s' else Scores Y)
    | Raise e => Raise e
    end.
Proof.
  intros H T HR. unfold pc_scores, bind at 1, svds.
  destruct (svds_solver (solver w) X r) as [o st]. simpl in H. subst o.
  cbv zeta. unfold bind, lift. rewrite T, HR.
  destruct (matmul X (transpose V')); [|reflexivity].
  now destruct (is_not_None return_eig).
Qed.

Lemma wasserstein_after_sort (Y : ndarray) (split : Q) (rmax : Z)
      (w : world solver_state) (U : ndarray) (s s' : list R) (V V' : ndarray) :
  let train := train_size Y split in
  let Ytrain := rows_upto Y train in
  let Ytest := rows_between Y train (Z.of_nat (nrows Y)) in
  fst (svds_solver (solver w) Ytrain rmax) = Some (U, s, V) ->
  take s (rev (argsort s)) = Ok s' ->
  take_rows V (rev (argsort s)) = Ok V' ->
  exists w1,
    fst (wasserstein_dim_select svds_solver emd2_solver Y split rmax w)
    = fst (for_append (py_range 1 (Z.min train rmax + 1))
                      (wasserstein_at emd2_solver Ytrain Ytest V') w1).
Proof.
  intros train Ytrain Ytest H T HR.
  unfold wasserstein_dim_select. fold train. fold Ytrain. fold Ytest.
  unfold bind at 1. unfold svds.
  destruct (svds_solver (solver w) Ytrain rmax) as [o st]. simpl in H. subst o.
  cbv zeta. unfold bind, lift. rewrite T, HR. eauto.
Qed.

(** X13. The re-sort makes [pc_scores] independent of the order in which the
    solver answers the singular triplets: two calls whose solver answers hold
    the same pairs of a singular value and a right singular vector, with
    distinct singular values, have the same result. *)
Theorem pc_scores_ignores_triplet_order (X : ndarray) (r : Z) (return_eig : pyobj)
        (w1 w2 : world solver_state)
        (U1 U2 : ndarray) (s1 s2 : list R) (V1 V2 : ndarray) :
  fst (svds_solver (solver w1) X r) = Some (U1, s1, V1) ->
  fst (svds_solver (solver w2) X r) = Some (U2, s2, V2) ->
  List.length s1 = nrows V1 -> List.length s2 = nrows V2 -> ncols V1 = ncols V2 ->
  NoDup s1 ->
  Permutation (combine s1 (rows V1)) (combine s2 (rows V2)) ->
  fst (pc_scores svds_solver X r return_eig w1) =
  fst (pc_scores svds_solver X r return_eig w2).
Proof.
  intros H1 H2 L1 L2 Hc Hnd Hp.
  destruct (take_argsort_total s1) as [s1' T1].
  destruct (take_argsort_total s2) as [s2' T2].
  destruct (@take_rows_argsort_total s1 V1) as [V1' R1]; [lia|].
  destruct (@take_rows_argsort_total s2 V2) as [V2' R2]; [lia|].
  rewrite (pc_scores_after_sort X r return_eig w1 H1 T1 R1).
  rewrite (pc_scores_after_sort X r return_eig w2 H2 T2 R2).
  now destruct (@resort_unique _ _ _ _ _ _ _ _ L1 L2 Hc Hnd Hp T1 R1 T2 R2) as [-> ->].
Qed.

(** X14. With a deterministic transport solver, [wasserstein_dim_select] is
    independent of the order of the triplets too: two calls whose SVD answers
    hold the same pairs, with distinct singular values, return the same
    list or raise the same exception. *)
Theorem wasserstein_ignores_triplet_order (Y : ndarray) (split : Q) (rmax : Z)
        (w1 w2 : world solver_state)
        (U1 U2 : ndarray) (s1 s2 : list R) (V1 V2 : ndarray) :
  deterministic_emd2 emd2_solver ->
  let Ytrain := rows_upto Y (train_size Y split) in
  fst (svds_solver (solver w1) Ytrain rmax) = Some (U1, s1, V1) ->
  fst (svds_solver (solver w2) Ytrain rmax) = Some (U2, s2, V2) ->
  List.length s1 = nrows V1 -> List.length s2 = nrows V2 -> ncols V1 = ncols V2 ->
  NoDup s1 ->
  Permutation (combine s1 (rows V1)) (combine s2 (rows V2)) ->
  fst (wasserstein_dim_select svds_solver emd2_solver Y split rmax w1) =
  fst (wasserstein_dim_select svds_solver emd2_solver Y split rmax w2).
Proof.
  intros He Ytrain H1 H2 L1 L2 Hc Hnd Hp.
  destruct (take_argsort_total s1) as [s1' T1].
  destruct (take_argsort_total s2) as [s2' T2].
  destruct (@take_rows_argsort_total s1 V1) as [V1' R1]; [lia|].
  destruct (@take_rows_argsort_total s2 V2) as [V2' R2]; [lia|].
  destruct (wasserstein_after_sort Y split rmax w1 H1 T1 R1) as [w1' ->].
  destruct (wasserstein_after_sort Y split rmax w2 H2 T2 R2) as [w2' ->].
  destruct (@resort_unique _ _ _ _ _ _ _ _ L1 L2 Hc Hnd Hp T1 R1 T2 R2) as [_ ->].
  apply stateless_for_append. intros r. unfold wasserstein_at.
  repeat (apply stateless_bind; [apply stateless_lift|]; intros ?).
  apply stateless_bind; [now apply stateless_emd2|]. intros d. apply stateless_ret.
Qed.

End TripletOrder.

(** ** The kernel of degree 2 on the plane *)

(** X15. For points of the plane ([Z] with two columns), a shift [c >= 0] and
    the exponent 2, the kernel [(Z @ Z.T + c) ** 2] is [F @ F.T] for the
    [n]-by-6 array [F] of the quadratic features of the points. *)
Theorem quadratic_kernel_has_six_features (np_power : R -> R -> R) (Z : ndarray) (c : R) :
  (forall x, np_power x 2%R = (x * x)%R) ->
  well_shaped Z = true ->
  ncols Z = 2 ->
  (0 <= c)%R ->
  let F := quadratic_features c Z in
  shape F = (nrows Z, 6) /\
  poly_kernel np_power Z c 2 = matmul F (transpose F).
Proof.
  intros Hpow Hw Hp Hc F. subst F. unfold quadratic_features.
  destruct (as_build Z Hw) as [z E]. rewrite Hp in E.
  set (n := nrows Z) in *. clearbody n. subst Z. clear Hw Hp.
  split; [unfold shape; now rewrite nrows_build|].
  unfold poly_kernel, matmul. rewrite !nrows_transpose. simpl ncols.
  rewrite !Nat.eqb_refl, !transpose_build, !mat_mul_build.
  unfold add_scalar. rewrite !map_entries_build. f_equal.
  apply build_ext. intros i j Hi Hj. rewrite Hpow.
  unfold sum_n. simpl. unfold Rsum. simpl.
  rewrite !entry_build by lia.
  pose proof (sqrt_sqrt 2 ltac:(lra)) as H2.
  pose proof (sqrt_sqrt (2 * c) ltac:(lra)) as H2c.
  set (q := sqrt 2) in *. set (qc := sqrt (2 * c)) in *.
  set (a := z i 0). set (b := z i 1). set (x := z j 0). set (y := z j 1).
  replace ((a * x + (b * y + 0) + c) * (a * x + (b * y + 0) + c))%R
    with (a * a * (x * x) + b * b * (y * y) + (q * q) * (a * b * (x * y))
          + (qc * qc) * (a * x) + (qc * qc) * (b * y) + c * c)%R
    by (rewrite H2, H2c; ring).
  ring.
Qed.

(** ** The extra properties on small inputs *)

Lemma grid_uniform_contract : uniform_contract grid_uniform.
Proof.
  intros g lo hi n. unfold grid_uniform.
  destruct (Z.ltb_spec n 0); simpl; [exact I|].
  split; [lia|]. now rewrite length_map, length_seq.
Qed.

Lemma flip_svds_contract : svds_contract flip_svds.
Proof.
  intros st A k. unfold flip_svds.
  destruct (1 <=? k)%Z eqn:E1; simpl; [|lia].
  destruct (k <? min_shape A)%Z eqn:E2; simpl; [|lia].
  apply Z.leb_le in E1. apply Z.ltb_lt in E2. unfold min_shape in E2.
  assert (Hn : nrows (rows_upto (identity (ncols A)) k) = Z.to_nat k).
  { rewrite identity_build, rows_upto_build, nrows_build.
    rewrite slice_index_nonneg by lia. lia. }
  assert (Hw : well_shaped (rows_upto (identity (ncols A)) k) = true).
  { rewrite identity_build, rows_upto_build. apply well_shaped_build. }
  split; [unfold min_shape; lia|].
  destruct (Nat.even st).
  - rewrite length_map, length_seq. auto.
  - rewrite length_rev, length_map, length_seq. unfold nrows in *. simpl.
    rewrite length_rev. repeat split; auto.
    unfold well_shaped in *. simpl. rewrite forallb_forall in *.
    intros row Hrow. apply Hw. now apply in_rev.
Qed.

Lemma square_or_Rpower_2 (x : R) : square_or_Rpower x 2 = (x * x)%R.
Proof. unfold square_or_Rpower. destruct (Req_dec_T 2 2); [reflexivity|lra]. Qed.

Lemma train_Y43_negative : (train_size Y43 (- 1 # 2) < 0)%Z.
Proof. reflexivity. Qed.

Lemma rank_Y43_negative :
  (1 <= 1 < min_shape (rows_upto Y43 (train_size Y43 (- 1 # 2))))%Z.
Proof. vm_compute. split; [discriminate|reflexivity]. Qed.

Lemma flip_even_Y63 :
  fst (flip_svds (solver (mkWorld 0 [])) (rows_upto Y63 (train_size Y63 (1 # 2))) 2)
  = Some (mkArray 2 [[1; 0]; [0; 1]; [0; 0]]%R, [INR 1; INR 2],
          mkArray 3 [[1; 0; 0]; [0; 1; 0]]%R).
Proof. vm_compute. reflexivity. Qed.

Lemma flip_odd_Y63 :
  fst (flip_svds (solver (mkWorld 1 [])) (rows_upto Y63 (train_size Y63 (1 # 2))) 2)
  = Some (mkArray 2 [[1; 0]; [0; 1]; [0; 0]]%R, [INR 2; INR 1],
          mkArray 3 [[0; 1; 0]; [1; 0; 0]]%R).
Proof. vm_compute. reflexivity. Qed.

Lemma flip_even_Y43 :
  fst (flip_svds (solver (mkWorld 0 [])) Y43 2)
  = Some (mkArray 2 [[1; 0]; [0; 1]; [0; 0]; [0; 0]]%R, [INR 1; INR 2],
          mkArray 3 [[1; 0; 0]; [0; 1; 0]]%R).
Proof. vm_compute. reflexivity. Qed.

Lemma flip_odd_Y43 :
  fst (flip_svds (solver (mkWorld 1 [])) Y43 2)
  = Some (mkArray 2 [[1; 0]; [0; 1]; [0; 0]; [0; 0]]%R, [INR 2; INR 1],
          mkArray 3 [[0; 1; 0]; [1; 0; 0]]%R).
Proof. vm_compute. reflexivity. Qed.

Lemma NoDup_1_2 : NoDup [INR 1; INR 2].
Proof.
  constructor; [|constructor; [intros []|constructor]].
  simpl. intros [H|[]]. lra.
Qed.

Lemma flipped_pairs :
  Permutation
    (combine [INR 1; INR 2] (rows (mkArray 3 [[1; 0; 0]; [0; 1; 0]]%R)))
    (combine [INR 2; INR 1] (rows (mkArray 3 [[0; 1; 0]; [1; 0; 0]]%R))).
Proof. simpl. apply perm_swap. Qed.


(** X3 on [Y43] with [split = -1/2]: [train] is -2. *)
Lemma negative_train_returns_empty_witness :
  svds_contract axis_svds /\
  (train_size Y43 (- 1 # 2) < 0)%Z /\
  (1 <= 1 < min_shape (rows_upto Y43 (train_size Y43 (- 1 # 2))))%Z /\
  (exists st,
      wasserstein_dim_select axis_svds product_emd2 Y43 (- 1 # 2) 1 w0
      = (Ok [], mkWorld st (trace w0 ++ [CallSvds (rows_upto Y43 (train_size Y43 (- 1 # 2))) 1])))
  /\
  forall ws w',
    wasserstein_dim_select axis_svds product_emd2 Y43 (- 1 # 2) 1 w0 = (Ok ws, w') ->
    selected_dimension ws = Raise ValueError.
Proof.
  split; [exact axis_svds_contract|]. split; [exact train_Y43_negative|].
  split; [exact rank_Y43_negative|].
  exact (@negative_train_returns_empty nat axis_svds product_emd2 Y43 (- 1 # 2) 1%Z w0
           axis_svds_contract train_Y43_negative rank_Y43_negative).
Defined.

(** X4 on [Y43], too small for the defaults. *)
Lemma default_arguments_witness :
  svds_contract axis_svds /\
  (fst (wasserstein_dim_select axis_svds product_emd2 Y43 default_split default_rmax w0)
   = Raise ValueError <-> nrows Y43 <= 101 \/ ncols Y43 <= 50) /\
  ((exists ws,
       fst (wasserstein_dim_select axis_svds product_emd2 Y43 default_split default_rmax w0)
       = Ok ws /\ List.length ws = 50)
   <-> 102 <= nrows Y43 /\ 51 <= ncols Y43).
Proof.
  split; [exact axis_svds_contract|].
  exact (@default_arguments_need_102_by_51 nat axis_svds product_emd2 Y43 w0
           axis_svds_contract).
Defined.

(** X5 on the run of [Y43]. *)
Lemma transport_calls_witness :
  wasserstein_dim_select axis_svds product_emd2 Y43 (1 # 2) 1 w0 = (Ok ws43, snd run43) /\
  exists evs,
    trace (snd run43)
    = trace w0 ++ CallSvds (rows_upto Y43 (train_size Y43 (1 # 2))) 1 :: evs /\
    List.length evs = List.length ws43 /\
    Forall (transport_call
              (nrows (rows_upto Y43 (train_size Y43 (1 # 2))))
              (nrows (rows_between Y43 (train_size Y43 (1 # 2)) (Z.of_nat (nrows Y43)))))
           evs.
Proof.
  split; [exact run43_Ok|].
  exact (@transport_calls_well_formed nat axis_svds product_emd2 Y43 (1 # 2) 1%Z w0
           (snd run43) ws43 run43_Ok).
Defined.

(** X6 for [pc_scores(Y43, 1, False)]. *)
Lemma pc_scores_errors_witness :
  svds_contract axis_svds /\
  match fst (pc_scores axis_svds Y43 1 (PyBool false) w0) with
  | Raise e => e = ValueError /\ (1 < 1 \/ min_shape Y43 <= 1)%Z
  | Ok res =>
      (1 <= 1 < min_shape Y43)%Z /\
      exists Y s,
        res = (if is_not_None (PyBool false) then ScoresAndEig Y s else Scores Y) /\
        shape Y = (nrows Y43, Z.to_nat 1) /\
        well_shaped Y = true /\
        List.length s = Z.to_nat 1 /\
        descending s /\
        exists U s0 Vh0,
          fst (axis_svds (solver w0) Y43 1) = Some (U, s0, Vh0) /\ Permutation s s0
  end.
Proof.
  split; [exact axis_svds_contract|].
  exact (@pc_scores_errors_and_shapes nat axis_svds Y43 1%Z (PyBool false) w0
           axis_svds_contract).
Defined.

(** X7 on the run of [Y43]: the selected dimension is 1. *)
Lemma selected_dimension_witness :
  svds_contract axis_svds /\
  valid_data Y43 (1 # 2) /\
  wasserstein_dim_select axis_svds product_emd2 Y43 (1 # 2) 1 w0 = (Ok ws43, snd run43) /\
  exists rhat,
    selected_dimension ws43 = Ok rhat /\
    (1 <= Z.of_nat rhat <= 1)%Z /\
    (forall r, 1 <= r <= List.length ws43 ->
               (nth (rhat - 1) ws43 0 <= nth (r - 1) ws43 0)%R) /\
    (forall r, 1 <= r < rhat -> (nth (rhat - 1) ws43 0 < nth (r - 1) ws43 0)%R).
Proof.
  split; [exact axis_svds_contract|]. split; [exact (proj1 valid_Y43)|].
  split; [exact run43_Ok|].
  exact (@selected_dimension_is_first_least nat axis_svds product_emd2 Y43 (1 # 2) 1%Z
           w0 (snd run43) ws43 axis_svds_contract (proj1 valid_Y43) run43_Ok).
Defined.

(** X8 for three points of the unit circle around [(1, 1)], and for the
    size [-1]. *)
Lemma make_circle_witness :
  uniform_contract grid_uniform /\
  match fst (make_circle grid_uniform 3 1 1 1 0) with
  | Raise e => e = ValueError /\ fst (grid_uniform 0 0%R (2 * PI)%R 3) = None
  | Ok A =>
      (exists s, fst (grid_uniform 0 0%R (2 * PI)%R 3) = Some s) /\
      (0 <= 3)%Z /\
      shape A = (Z.to_nat 3, 2) /\
      well_shaped A = true /\
      Forall (on_circle 1 1 1) (rows A)
  end /\
  (-1 < 0)%Z /\
  fst (make_circle grid_uniform (-1) 1 1 1 0) = Raise ValueError.
Proof.
  split; [exact grid_uniform_contract|].
  split; [|split; [lia|]].
  - exact (proj2 (@make_circle_points_on_circle nat grid_uniform 3%Z 1%R 1%R 1%R 0
                    grid_uniform_contract)).
  - apply (proj1 (@make_circle_points_on_circle nat grid_uniform (-1)%Z 1%R 1%R 1%R 0
                    grid_uniform_contract)). lia.
Defined.

(** X9 to X12 for the coordinate axes of the plane. *)
Lemma projected_points_witness :
  well_shaped Y22 = true /\
  orthonormal_rows Y22 /\
  ncols Y22 = ncols Y22 /\
  exists P Yproj,
    projection Y22 1 = Ok P /\
    matmul Y22 (transpose P) = Ok Yproj /\
    matmul Yproj (transpose P) = Ok Yproj.
Proof.
  split; [reflexivity|]. split; [exact orthonormal_Y22|]. split; [reflexivity|].
  exact (@projected_points_are_fixed Y22 Y22 1%Z eq_refl orthonormal_Y22 eq_refl eq_refl).
Defined.

Lemma projections_nested_witness :
  well_shaped Y22 = true /\
  orthonormal_rows Y22 /\
  (0 <= 1 <= 2)%Z /\
  exists P1 P2,
    projection Y22 1 = Ok P1 /\
    projection Y22 2 = Ok P2 /\
    matmul P1 P2 = Ok P1 /\
    matmul P2 P1 = Ok P1.
Proof.
  split; [reflexivity|]. split; [exact orthonormal_Y22|]. split; [lia|].
  exact (@projections_are_nested Y22 1%Z 2%Z eq_refl orthonormal_Y22
           (conj Z.le_0_1 (Zle_bool_imp_le 1 2 eq_refl))).
Defined.

Lemma projection_keeps_witness :
  well_shaped Y22 = true /\
  orthonormal_rows Y22 /\
  exists P VP,
    projection Y22 1 = Ok P /\
    matmul Y22 P = Ok VP /\
    shape VP = shape Y22 /\
    rows_upto VP 1 = rows_upto Y22 1 /\
    forall a j, slice_index (nrows Y22) 1 <= a < nrows Y22 -> j < ncols Y22 ->
                entry VP a j = 0%R.
Proof.
  split; [reflexivity|]. split; [exact orthonormal_Y22|].
  exact (@projection_keeps_leading_vectors Y22 1%Z eq_refl orthonormal_Y22).
Defined.

Lemma projection_diagonal_witness :
  well_shaped Y22 = true /\
  orthonormal_rows Y22 /\
  exists P,
    projection Y22 1 = Ok P /\
    diagonal_sum P = INR (slice_index (nrows Y22) 1) /\
    ((0 <= 1 <= Z.of_nat (nrows Y22))%Z -> diagonal_sum P = 1%R).
Proof.
  split; [reflexivity|]. split; [exact orthonormal_Y22|].
  exact (@projection_diagonal_sum Y22 1%Z eq_refl orthonormal_Y22).
Defined.

(** X13 for the two answers of [flip_svds] on [Y43] at rank 2. *)
Lemma pc_scores_order_witness :
  fst (flip_svds (solver (mkWorld 0 [])) Y43 2)
  = Some (mkArray 2 [[1; 0]; [0; 1]; [0; 0]; [0; 0]]%R, [INR 1; INR 2],
          mkArray 3 [[1; 0; 0]; [0; 1; 0]]%R) /\
  fst (flip_svds (solver (mkWorld 1 [])) Y43 2)
  = Some (mkArray 2 [[1; 0]; [0; 1]; [0; 0]; [0; 0]]%R, [INR 2; INR 1],
          mkArray 3 [[0; 1; 0]; [1; 0; 0]]%R) /\
  NoDup [INR 1; INR 2] /\
  Permutation
    (combine [INR 1; INR 2] (rows (mkArray 3 [[1; 0; 0]; [0; 1; 0]]%R)))
    (combine [INR 2; INR 1] (rows (mkArray 3 [[0; 1; 0]; [1; 0; 0]]%R))) /\
  fst (pc_scores flip_svds Y43 2 PyNone (mkWorld 0 [])) =
  fst (pc_scores flip_svds Y43 2 PyNone (mkWorld 1 [])).
Proof.
  split; [exact flip_even_Y43|]. split; [exact flip_odd_Y43|].
  split; [exact NoDup_1_2|]. split; [exact flipped_pairs|].
  exact (@pc_scores_ignores_triplet_order nat flip_svds Y43 2%Z PyNone
           (mkWorld 0 []) (mkWorld 1 []) _ _ _ _ _ _ flip_even_Y43 flip_odd_Y43
           eq_refl eq_refl eq_refl NoDup_1_2 flipped_pairs).
Defined.

(** X14 for the two answers of [flip_svds] on the training half of [Y63]. *)
Lemma wasserstein_order_witness :
  deterministic_emd2 product_emd2 /\
  fst (flip_svds (solver (mkWorld 0 [])) (rows_upto Y63 (train_size Y63 (1 # 2))) 2)
  = Some (mkArray 2 [[1; 0]; [0; 1]; [0; 0]]%R, [INR 1; INR 2],
          mkArray 3 [[1; 0; 0]; [0; 1; 0]]%R) /\
  fst (flip_svds (solver (mkWorld 1 [])) (rows_upto Y63 (train_size Y63 (1 # 2))) 2)
  = Some (mkArray 2 [[1; 0]; [0; 1]; [0; 0]]%R, [INR 2; INR 1],
          mkArray 3 [[0; 1; 0]; [1; 0; 0]]%R) /\
  NoDup [INR 1; INR 2] /\
  Permutation
    (combine [INR 1; INR 2] (rows (mkArray 3 [[1; 0; 0]; [0; 1; 0]]%R)))
    (combine [INR 2; INR 1] (rows (mkArray 3 [[0; 1; 0]; [1; 0; 0]]%R))) /\
  fst (wasserstein_dim_select flip_svds product_emd2 Y63 (1 # 2) 2 (mkWorld 0 [])) =
  fst (wasserstein_dim_select flip_svds product_emd2 Y63 (1 # 2) 2 (mkWorld 1 [])).
Proof.
  split; [exact product_emd2_deterministic|].
  split; [exact flip_even_Y63|]. split; [exact flip_odd_Y63|].
  split; [exact NoDup_1_2|]. split; [exact flipped_pairs|].
  exact (@wasserstein_ignores_triplet_order nat flip_svds product_emd2 Y63 (1 # 2) 2%Z
           (mkWorld 0 []) (mkWorld 1 []) _ _ _ _ _ _ product_emd2_deterministic
           flip_even_Y63 flip_odd_Y63 eq_refl eq_refl eq_refl NoDup_1_2 flipped_pairs).
Defined.

(** X15 for the kernel [(Z @ Z.T + 1) ** 2] of two points of the plane. *)
Lemma quadratic_kernel_witness :
  (forall x, square_or_Rpower x 2 = (x * x)%R) /\
  well_shaped Y22 = true /\
  ncols Y22 = 2 /\
  (0 <= 1)%R /\
  shape (quadratic_features 1 Y22) = (nrows Y22, 6) /\
  poly_kernel square_or_Rpower Y22 1 2
  = matmul (quadratic_features 1 Y22) (transpose (quadratic_features 1 Y22)).
Proof.
  split; [exact square_or_Rpower_2|]. split; [reflexivity|]. split; [reflexivity|].
  split; [exact Rle_0_1|].
  exact (@quadratic_kernel_has_six_features square_or_Rpower Y22 1%R
           square_or_Rpower_2 eq_refl eq_refl Rle_0_1).
Defined.

(** ** A split fraction of one or more *)

Section UnvalidatedSplit.

Variable solver_state : Type.
Variable svds_solver :
  solver_state -> ndarray -> Z -> option (ndarray * list R * ndarray) * solver_state.
Variable emd2_solver :
  solver_state -> list R -> list R -> ndarray -> R * solver_state.


End UnvalidatedSplit.

(** ** The scores and the left singular vectors *)

Lemma nth_map_within (A B : Type) (f : A -> B) (l : list A) (j : nat) (d : A) (d' : B) :
  j < List.length l -> nth j (map f l) d' = f (nth j l d).
Proof.
  intros Hj. rewrite (nth_indep _ d' (f d)) by now rewrite length_map.
  apply map_nth.
Qed.

Lemma transpose_involutive (A : ndarray) :
  well_shaped A = true -> transpose (transpose A) = A.
Proof.
  intros H. destruct (as_build A H) as [f E].
  set (m := nrows A) in *. set (n := ncols A) in *. clearbody m n. subst A.
  now rewrite !transpose_build.
Qed.

Lemma entry_mat_mul_transpose (X V : ndarray) (i j : nat) :
  well_shaped V = true -> i < nrows X -> j < nrows V ->
  entry (mat_mul X (transpose V)) i j = dot (nth i (rows X) []) (nth j (rows V) []).
Proof.
  intros HV Hi Hj. unfold entry, mat_mul. rewrite (transpose_involutive V HV). simpl.
  rewrite (nth_indep _ [] ((fun a => map (dot a) (rows V)) []))
    by now rewrite length_map.
  rewrite (map_nth (fun a => map (dot a) (rows V))).
  rewrite (nth_indep _ 0%R (dot (nth i (rows X) []) []))
    by now rewrite length_map.
  apply map_nth.
Qed.

Section Scores.

Variable solver_state : Type.
Variable svds_solver :
  solver_state -> ndarray -> Z -> option (ndarray * list R * ndarray) * solver_state.

(** X17. When the solver answers singular triplets of [X], the scores are
    the left singular vectors scaled by the singular values, in descending
    order of the singular values: column [j] of [Y] is [s[j]] times the
    column of [U] that the re-sort puts at position [j]. *)
Theorem pc_scores_are_scaled_left_vectors (X : ndarray) (r : Z) (return_eig : pyobj)
        (w w' : world solver_state) (res : scores)
        (U : ndarray) (s0 : list R) (Vh0 : ndarray) :
  fst (svds_solver (solver w) X r) = Some (U, s0, Vh0) ->
  well_shaped Vh0 = true ->
  singular_triplets X U s0 Vh0 ->
  pc_scores svds_solver X r return_eig w = (Ok res, w') ->
  exists Y s,
    res = (if is_not_None return_eig then ScoresAndEig Y s else Scores Y) /\
    descending s /\
    forall i j,
      i < nrows X -> j < List.length s0 ->
      entry Y i j = (nth j s 0 * entry U i (nth j (rev (argsort s0)) 0%nat))%R.
Proof.
  intros Hsvd HwV Htri H. unfold pc_scores in H.
  apply bind_Ok in H as ([[U' s0'] Vh0'] & w1 & Hs & H). cbv zeta in H.
  unfold svds in Hs. destruct (svds_solver (solver w) X r) as [o st].
  simpl in Hsvd. subst o. inversion Hs; subst U' s0' Vh0' w1; clear Hs.
  apply bind_Ok in H as (s & w2 & HT & H). apply lift_Ok in HT as [HT ->].
  apply bind_Ok in H as (Vh & w2 & HV & H). apply lift_Ok in HV as [HV ->].
  apply bind_Ok in H as (Y & w2 & HY & H). apply lift_Ok in HY as [HY ->].
  exists Y, s. split.
  { destruct (is_not_None return_eig); apply ret_Ok in H as [-> _]; reflexivity. }
  split; [now apply take_argsort_descending with (s := s0)|].
  intros i j Hi Hj.
  unfold matmul in HY. destruct (Nat.eqb _ _); [|discriminate].
  inversion HY; subst Y; clear HY.
  pose proof (take_rows_shape _ _ HV) as (Hc & Hn & Hr).
  apply (take_Ok 0%R) in HT as [Es _].
  unfold take_rows in HV.
  destruct (take (rows Vh0) (rev (argsort s0))) as [rs|e] eqn:ER; [|discriminate].
  apply (take_Ok []) in ER as [_ Hin].
  assert (Hlen : List.length (rev (argsort s0)) = List.length s0).
  { now rewrite length_rev, (Permutation_length (argsort_perm s0)), length_seq. }
  assert (Hidx : nth j (rev (argsort s0)) 0 < List.length s0).
  { apply argsort_rev_in, nth_In. lia. }
  assert (HwVh : well_shaped Vh = true).
  { unfold well_shaped in *. rewrite forallb_forall in *. intros row Hrow.
    rewrite Hc. apply HwV. rewrite Hr in Hrow.
    apply in_map_iff in Hrow as (a & <- & Ha). apply nth_In.
    rewrite Forall_forall in Hin. now apply Hin. }
  rewrite entry_mat_mul_transpose by (auto; lia).
  rewrite Hr, Es.
  rewrite (@nth_map_within _ _ (fun a => nth a (rows Vh0) []) _ j 0 []) by lia.
  rewrite (@nth_map_within _ _ (fun a => nth a s0 0%R) _ j 0 0%R) by lia.
  now apply Htri.
Qed.

End Scores.

Lemma axis_svds_Y23 :
  fst (axis_svds (solver w0) Y23 1)
  = Some (mkArray 1 [[1]; [0]], [Rabs 3], mkArray 3 [[1; 0; 0]])%R.
Proof. vm_compute. reflexivity. Qed.

Lemma triplets_Y23 :
  singular_triplets Y23 (mkArray 1 [[1]; [0]]%R) [Rabs 3] (mkArray 3 [[1; 0; 0]]%R).
Proof.
  intros a i Ha Hi. simpl in Ha. unfold nrows in Hi. simpl in Hi.
  assert (a = 0) by lia. subst a.
  assert (E : Rabs 3 = 3%R) by (apply Rabs_right; lra).
  destruct i as [|[|i]]; [| |lia]; unfold dot, entry, Rsum; simpl; rewrite E; lra.
Qed.


Lemma scores23_Ok : scores23 = (Ok res23, snd scores23).
Proof. vm_compute. reflexivity. Qed.

(** X17 for [pc_scores(Y23, 1)]: the scores are the first column of [Y23]. *)
Lemma pc_scores_scaled_witness :
  fst (axis_svds (solver w0) Y23 1)
  = Some (mkArray 1 [[1]; [0]], [Rabs 3], mkArray 3 [[1; 0; 0]])%R /\
  well_shaped (mkArray 3 [[1; 0; 0]]%R) = true /\
  singular_triplets Y23 (mkArray 1 [[1]; [0]]%R) [Rabs 3] (mkArray 3 [[1; 0; 0]]%R) /\
  pc_scores axis_svds Y23 1 PyNone w0 = (Ok res23, snd scores23) /\
  exists Y s,
    res23 = (if is_not_None PyNone then ScoresAndEig Y s else Scores Y) /\
    descending s /\
    forall i j,
      i < nrows Y23 -> j < List.length [Rabs 3] ->
      entry Y i j
      = (nth j s 0 * entry (mkArray 1 [[1]; [0]]) i (nth j (rev (argsort [Rabs 3])) 0%nat))%R.
Proof.
  split; [exact axis_svds_Y23|]. split; [reflexivity|]. split; [exact triplets_Y23|].
  split; [exact scores23_Ok|].
  exact (@pc_scores_are_scaled_left_vectors nat axis_svds Y23 1%Z PyNone w0
           (snd scores23) res23 _ _ _ axis_svds_Y23 eq_refl triplets_Y23 scores23_Ok).
Defined.
